(** * telegram_perplexity_bot.py: conversation history, completion client,
      reply truncation and the message controller.

    A shallow embedding of [src/telegram_perplexity_bot.py].

    - A Python [str] is a list of Unicode code points ([str]); literals are
      written as in the source and decoded from UTF-8 by [utf8].
    - A message dict [{"role": r, "content": c}] is the record [Message].
    - [context.chat_data] is the record [ChatData]: its ['history'] entry is
      present or absent.
    - The module globals [total_requests], [total_tokens], [estimated_cost]
      are the record [Counters], threaded through the client.
    - What the bot does to the outside (chat action, replies, HTTP posts,
      sleeps) is returned as a list of [Event]s, in order.
    - The remote API is an oracle giving the outcome of each attempt. *)

From Stdlib Require Import Ascii String.
From Stdlib Require Import List ZArith NArith QArith Bool Lia PrimFloat Uint63.
Import ListNotations.

(* ================================================================== *)
(** ** Python strings *)

(** A code point. *)
Definition char := N.

(** A Python [str]. [len] is [List.length], [+] is [++]. *)
Definition str := list char.

Definition cont (a : ascii) : N := N_of_ascii a - 128.

(** UTF-8 decoding of a literal of this file into code points. *)
Fixpoint utf8 (s : string) : str :=
  match s with
  | EmptyString => []
  | String a s1 =>
    let b := N_of_ascii a in
    if (b <? 128)%N then b :: utf8 s1
    else match s1 with
    | EmptyString => []
    | String a2 s2 =>
      if (b <? 224)%N then ((b - 192) * 64 + cont a2)%N :: utf8 s2
      else match s2 with
      | EmptyString => []
      | String a3 s3 =>
        if (b <? 240)%N
        then ((b - 224) * 4096 + cont a2 * 64 + cont a3)%N :: utf8 s3
        else match s3 with
        | EmptyString => []
        | String a4 s4 =>
          ((b - 240) * 262144 + cont a2 * 4096 + cont a3 * 64 + cont a4)%N
            :: utf8 s4
        end
      end
    end
  end.

Definition str_eqb (a b : str) : bool :=
  if list_eq_dec N.eq_dec a b then true else false.

(** [s.startswith(prefix)]. *)
Fixpoint startswith (s prefix : str) : bool :=
  match prefix, s with
  | [], _ => true
  | _ :: _, [] => false
  | p :: prefix', c :: s' => (p =? c)%N && startswith s' prefix'
  end.

(** [needle in hay] for two strings: [needle] occurs as a substring. *)
Fixpoint contains (hay needle : str) : bool :=
  startswith hay needle ||
  match hay with
  | [] => false
  | _ :: hay' => contains hay' needle
  end.

(** [x in [s1, s2, ...]]: membership in a list of strings. *)
Definition str_in (x : str) (l : list str) : bool := existsb (str_eqb x) l.

(** [any(p in s for p in phrases)]. *)
Definition any_in (phrases : list str) (s : str) : bool :=
  existsb (contains s) phrases.

(** The code points [c] with [chr(c).isspace()]. *)
Definition whitespace : list char :=
  [9; 10; 11; 12; 13; 28; 29; 30; 31; 32; 133; 160; 5760; 8192; 8193; 8194;
   8195; 8196; 8197; 8198; 8199; 8200; 8201; 8202; 8232; 8233; 8239; 8287;
   12288]%N.

Definition isspace (c : char) : bool := existsb (N.eqb c) whitespace.

Fixpoint lstrip (s : str) : str :=
  match s with
  | [] => []
  | c :: s' => if isspace c then lstrip s' else s
  end.

(** [s.strip()]. *)
Definition strip (s : str) : str := rev (lstrip (rev (lstrip s))).

(* ================================================================== *)
(** ** Configuration *)

Definition MAX_OUTPUT_TOKENS : Z := 200.
Definition MAX_OUTPUT_LENGTH : nat := 1000.
Definition MAX_HISTORY_MESSAGES : nat := 30.
Definition MAX_HISTORY_TOKENS_ESTIMATE : Z := 3500.

(** The cost counter is a Python float that is only accumulated and shown;
    it is modelled by the rational number it approximates, so rounding to
    binary64 is left out of the cost arithmetic. *)
Definition REQUEST_COST : Q := 5 # 1000.
Definition TOKEN_COST_PER_MILLION : Q := 1.

Definition SYSTEM_PROMPT : str := Eval vm_compute in utf8 "
You are Alphy, an AI assistant. Provide neutral, brief, and straightforward information.
Focus on directly answering the user's request based on the provided context and conversation history.
Avoid speculation, opinions, or unnecessary elaboration.

DO NOT PROVIDE SEARCH RESULTS UNTILL YOURE ASKED TO DO SO.

IMPORTANT FORMAT GUIDELINES:
1. Keep answers extremely concise.
2. Use basic Markdown formatting (**bold**, *italic*) sparingly for clarity only.
3. Do not include citations.
4. Avoid lists unless essential for clarity, keep them very short.
".

(* ================================================================== *)
(** ** Messages and the token estimate *)

Inductive Role := system | user | assistant.

Record Message := { role : Role; content : str }.

Definition History := list Message.

Definition SYSTEM_PROMPT_MESSAGE : Message :=
  {| role := system; content := SYSTEM_PROMPT |}.

Definition user_message_of (text : str) : Message :=
  {| role := user; content := text |}.

Definition assistant_message_of (text : str) : Message :=
  {| role := assistant; content := text |}.

(** [sum(len(m.get('content', '')) for m in messages)]. *)
Fixpoint total_chars (messages : History) : Z :=
  match messages with
  | [] => 0
  | m :: rest => Z.of_nat (length (content m)) + total_chars rest
  end.

(** [estimate_tokens]: one token for four characters. *)
Definition estimate_tokens (messages : History) : Z := total_chars messages / 4.

(* ================================================================== *)
(** ** The stored history and its bounds (handle_message, lines 230-269) *)

(** One chat's [context.chat_data]: the ['history'] entry, when present. *)
Record ChatData := { history : option History }.

(** [context.chat_data.setdefault('history', [SYSTEM_PROMPT_MESSAGE])]:
    the stored history, seeded and stored when the entry is absent. *)
Definition setdefault_history (d : ChatData) : History * ChatData :=
  match history d with
  | Some h => (h, d)
  | None => ([SYSTEM_PROMPT_MESSAGE], {| history := Some [SYSTEM_PROMPT_MESSAGE] |})
  end.

(** [context.chat_data.pop('history', None)]. *)
Definition pop_history (d : ChatData) : ChatData := {| history := None |}.

(** The slice [l[-n:]]: the last [n] entries, the whole list when it is
    shorter (and when [n] is 0, since [-0] is [0]). *)
Definition last_n {A : Type} (n : nat) (l : list A) : list A :=
  if (n =? 0)%nat then l else skipn (length l - n) l.

(** [[p[0]] + p[-(MAX_HISTORY_MESSAGES):]]. The list it is applied to ends
    with the new user message, so [p[0]] exists. *)
Definition trim_history (p : History) : History :=
  match p with
  | [] => []
  | first :: _ => first :: last_n MAX_HISTORY_MESSAGES p
  end.

(** The limit checks of [handle_message]: the candidate history (trimmed
    by count when only the count is exceeded) and [history_reset_needed]. *)
Definition check_history_limits (history : History) (user_message : str)
  : History * bool :=
  let potential_next_history := history ++ [user_message_of user_message] in
  let estimated_tokens_count := estimate_tokens potential_next_history in
  if (estimated_tokens_count >? MAX_HISTORY_TOKENS_ESTIMATE)%Z then
    (potential_next_history, true)
  else if (MAX_HISTORY_MESSAGES + 1 <? length potential_next_history)%nat then
    let potential_next_history := trim_history potential_next_history in
    let estimated_tokens_count := estimate_tokens potential_next_history in
    if (estimated_tokens_count >? MAX_HISTORY_TOKENS_ESTIMATE)%Z then
      (potential_next_history, true)
    else (potential_next_history, false)
  else (potential_next_history, false).

(** Lines 230-269 as one operation on the store (the specification's
    appendAndBound): get or seed the history, check the limits, and either
    reset the store to the seed or commit the candidate. Returns the new
    store and whether it was reset. *)
Definition append_and_bound (d : ChatData) (user_message : str)
  : ChatData * bool :=
  let '(history, _) := setdefault_history d in
  let '(potential_next_history, history_reset_needed) :=
    check_history_limits history user_message in
  if history_reset_needed then
    ({| history := Some [SYSTEM_PROMPT_MESSAGE] |}, true)
  else ({| history := Some potential_next_history |}, false).

(** The stored history after a run of user messages, each passed through
    [append_and_bound] (no assistant turn in between). *)
Fixpoint append_all (d : ChatData) (texts : list str) : ChatData :=
  match texts with
  | [] => d
  | t :: rest => append_all (fst (append_and_bound d t)) rest
  end.

(* ================================================================== *)
(** ** The completion client (get_perplexity_response) *)

Record Counters := {
  total_requests : Z;
  total_tokens : Z;
  estimated_cost : Q
}.

(** The response body, after [response.json()], as far as the client reads
    it: an absent key is [None]. Token counts are natural numbers. *)
Record Usage := {
  prompt_tokens : option N;
  completion_tokens : option N
}.

Record ChoiceMessage := { message_content : option str }.

Record Choice := { message : option ChoiceMessage }.

Record ApiResult := {
  usage : option Usage;
  choices : option (list Choice)
}.

(** What one [requests.post] attempt (with [raise_for_status] and
    [json()]) comes to. *)
Inductive Outcome :=
| Timeout                       (* requests.exceptions.Timeout *)
| RequestError                  (* any other RequestException *)
| UnexpectedError               (* any other exception *)
| Responded (result : ApiResult).

(** What the bot does to the outside. *)
Inductive Event :=
| Typing                        (* send_action("typing") *)
| Reply (text : str)            (* update.message.reply_text *)
| Post (messages : History)     (* requests.post to the completions URL *)
| Sleep (seconds : Z).          (* time.sleep *)

Definition NEED_MESSAGE_REPLY : str :=
  Eval vm_compute in utf8 "I need a message from you to respond!".
Definition TIMEOUT_REPLY : str :=
  Eval vm_compute in utf8 "Sorry, the request timed out. Please try again later.".
Definition REQUEST_ERROR_REPLY : str :=
  Eval vm_compute in utf8 "Sorry, I encountered an error when trying to process your request. Please try again later.".
Definition PARSE_ERROR_REPLY : str :=
  Eval vm_compute in utf8 "Sorry, I had trouble understanding the response. Please try again later.".
Definition UNEXPECTED_REPLY : str :=
  Eval vm_compute in utf8 "Sorry, an unexpected error occurred. Please try again later.".


(** [d.get(key, 0)]. *)
Definition get_or_0 (v : option N) : N :=
  match v with Some n => n | None => 0%N end.

(** The statistics update after a response was received and decoded. *)
Definition update_statistics (result : ApiResult) (c : Counters) : Counters :=
  let total_requests := (total_requests c + 1)%Z in
  match usage result with
  | Some u =>
    let input_tokens := get_or_0 (prompt_tokens u) in
    let output_tokens := get_or_0 (completion_tokens u) in
    let token_cost :=
      inject_Z (Z.of_N (input_tokens + output_tokens)) / inject_Z 1000000
      * TOKEN_COST_PER_MILLION in
    {| total_requests := total_requests;
       total_tokens := (total_tokens c + Z.of_N (input_tokens + output_tokens))%Z;
       estimated_cost := estimated_cost c + (REQUEST_COST + token_cost) |}
  | None =>
    {| total_requests := total_requests;
       total_tokens := total_tokens c;
       estimated_cost := estimated_cost c + REQUEST_COST |}
  end.

(** [result["choices"][0]["message"]["content"]]; [None] stands for the
    KeyError or IndexError of a missing key or an empty list. *)
Definition top_content (result : ApiResult) : option str :=
  match choices result with
  | Some (choice :: _) =>
    match message choice with
    | Some m => message_content m
    | None => None
    end
  | _ => None
  end.

(** The [while retry_count < max_retries] loop. [api k] is the outcome of
    the attempt made with [retry_count = k]. The result is the returned
    string, [None] when the loop ends without a [return]. [fuel] bounds the
    iterations; [max_retries - retry_count] is enough. *)
Fixpoint request_loop (fuel max_retries retry_count : nat) (messages : History)
  (api : nat -> Outcome) (c : Counters) : option str * Counters * list Event :=
  if (retry_count <? max_retries)%nat then
    match fuel with
    | O => (None, c, [])
    | S fuel' =>
      match api retry_count with
      | Responded result =>
        let c := update_statistics result c in
        match top_content result with
        | Some text => (Some text, c, [Post messages])
        | None => (Some PARSE_ERROR_REPLY, c, [Post messages])
        end
      | Timeout =>
        let retry_count := S retry_count in
        if (max_retries <=? retry_count)%nat then
          (Some TIMEOUT_REPLY, c, [Post messages])
        else
          let '(r, c, events) :=
            request_loop fuel' max_retries retry_count messages api c in
          (r, c, Post messages :: Sleep (2 ^ Z.of_nat retry_count) :: events)
      | RequestError => (Some REQUEST_ERROR_REPLY, c, [Post messages])
      | UnexpectedError => (Some UNEXPECTED_REPLY, c, [Post messages])
      end
    end
  else (None, c, []).

Definition MAX_RETRIES : nat := 3.

Definition get_perplexity_response (messages : History) (max_retries : nat)
  (api : nat -> Outcome) (c : Counters) : option str * Counters * list Event :=
  if (length messages <=? 1)%nat then (Some NEED_MESSAGE_REPLY, c, [])
  else request_loop max_retries max_retries 0 messages api c.

(** The number of HTTP attempts and the sleeps among the events. *)
Fixpoint attempts_of (events : list Event) : nat :=
  match events with
  | [] => 0
  | Post _ :: rest => S (attempts_of rest)
  | _ :: rest => attempts_of rest
  end.

Fixpoint sleeps_of (events : list Event) : list Z :=
  match events with
  | [] => []
  | Sleep s :: rest => s :: sleeps_of rest
  | _ :: rest => sleeps_of rest
  end.

(* ================================================================== *)
(** ** Reply truncation (truncate_text) *)

Definition float_of_nat (n : nat) : float := of_uint63 (of_Z (Z.of_nat n)).

#[local] Set Warnings "-inexact-float".
(** [last_complete > max_length * 0.7], in binary64 as Python computes it
    (the integers are below 2^53, so they convert exactly). *)
Definition past_threshold (last_complete max_length : nat) : bool :=
  PrimFloat.ltb (PrimFloat.mul (float_of_nat max_length) 0.7%float)
                (float_of_nat last_complete).
#[local] Set Warnings "inexact-float".

(** [s.rfind(c)] for a single character: the highest index of [c] in [s];
    [None] stands for -1. *)
Fixpoint rfind (s : str) (c : char) : option nat :=
  match s with
  | [] => None
  | x :: s' =>
    match rfind s' c with
    | Some i => Some (S i)
    | None => if (x =? c)%N then Some 0%nat else None
    end
  end.

Definition TRUNCATION_NOTICE : str :=
  Eval vm_compute in
    [10; 10]%N ++ utf8 "*[Response truncated due to length...]*".

(** ['.', '!', '?', '\n'], in the order the loop tries them. *)
Definition break_chars : list char := [46; 33; 63; 10]%N.

(** The [for char in [...]] loop: the first character, in list order, whose
    last occurrence in [text[:max_length]] passes the threshold decides the
    cut. A character that does not occur ([rfind] gives -1) never passes,
    [max_length * 0.7] being at least 0. *)
Fixpoint truncate_at_break (chars : list char) (text : str) (max_length : nat)
  : option str :=
  match chars with
  | [] => None
  | char :: chars' =>
    match rfind (firstn max_length text) char with
    | Some last_complete =>
      if past_threshold last_complete max_length
      then Some (firstn (last_complete + 1) text ++ TRUNCATION_NOTICE)
      else truncate_at_break chars' text max_length
    | None => truncate_at_break chars' text max_length
    end
  end.

(** [max_length] is a length, a natural number. *)
Definition truncate_text (text : str) (max_length : nat) : str :=
  if (length text <=? max_length)%nat then text
  else
    match truncate_at_break break_chars text max_length with
    | Some truncated => truncated
    | None => firstn max_length text ++ TRUNCATION_NOTICE
    end.

(* ================================================================== *)
(** ** Local replies and the controller (start, restart, clear_command,
       handle_message) *)

Definition SORRY : str := Eval vm_compute in utf8 "Sorry,".

Definition RESET_NOTICE : str :=
  Eval vm_compute in utf8 "⚠️ Conversation history became too long and has been reset. Please send your message again to continue.".

Definition ERROR_NOTICE : str :=
  Eval vm_compute in utf8 "Conversation history became too long, please reset chat to continue.".

Definition CLEARED_NOTICE : str :=
  Eval vm_compute in utf8 "Conversation history cleared.".

(** [GREETING_MESSAGE.format(first_name)]. *)
Definition greeting (first_name : str) : str :=
  utf8 "Hi " ++ first_name ++
  utf8 "! Ask your question and Alphy will try to answer it. The model is not deisgned for personal human interaction, it is a search and reasoning engine. Do not greet or thank it.".

Definition identity_phrases : list str := map utf8
  ["who are you"; "what are you"; "tell me about yourself"; "what's your name"; "your purpose";
   "кто ты"; "ты кто"; "что ты такое"; "как тебя зовут"; "расскажи о себе";
   "что ты умеешь"; "what can you do"; "твои возможности"; "твои функции";
   "что ты делаешь"; "для чего ты нужна"; "для чего ты нужен"; "какова твоя цель";
   "твоя задача"; "твое предназначение"]%string.

Definition russian_identity_phrases : list str := map utf8
  ["кто ты"; "ты кто"; "что ты такое"; "как тебя зовут"; "расскажи о себе"; "что ты умеешь";
   "твои возможности"; "твои функции"; "что ты делаешь"; "для чего ты нужна"; "для чего ты нужен";
   "какова твоя цель"; "твоя задача"; "твое предназначение"]%string.

Definition greetings : list str := map utf8
  ["hello"; "hi"; "hey"; "howdy"; "hola"; "greetings";
   "good morning"; "good afternoon"; "good evening";
   "привет"; "прив"; "здарова"; "здравствуй"; "Здравствуй!"; "здравствуйте";
   "доброе утро"; "добрый день"; "добрый вечер"]%string.

Definition farewells : list str := map utf8
  ["bye"; "goodbye"; "see you"; "see ya"; "later"; "cya";
   "пока"; "до свидания"; "увидимся"; "прощай"; "до встречи"]%string.

Definition thanks : list str := map utf8
  ["thanks"; "thank you"; "thx"; "ty"; "thank you very much"; "thanks a lot";
   "спасибо"; "спс"; "благодарю"; "спасибо большое"; "огромное спасибо"]%string.

Definition affirmations : list str := map utf8
  ["ok"; "okay"; "got it"; "understood"; "fine"; "alright"; "yes"; "yep"; "yeah";
   "хорошо"; "окей"; "ладно"; "понял"; "поняла"; "понятно"; "да"; "ага"]%string.

Definition russian_affirmations : list str := map utf8
  ["хорошо"; "окей"; "ладно"; "понял"; "поняла"; "понятно"; "да"; "ага"]%string.

Definition negations : list str := map utf8
  ["no"; "nope"; "nah"; "not really"; "нет"; "неа"; "не"]%string.

(** The chain of local handlers on the lower-cased, stripped message: the
    canned reply of the first group that matches, [None] when
    [handled_locally] stays false. *)
Definition local_response (lower_query : str) : option str :=
  let has := contains lower_query in
  let starts := startswith lower_query in
  if has (utf8 "гойда") then Some (utf8 "Гойда, брат!")
  else if any_in identity_phrases lower_query then
    if any_in russian_identity_phrases lower_query
    then Some (utf8 "Я модель-трансформер, созданная на основе Llama 3.3 70B и дополненная фунциями поиска в интернете. Я отвечаю на ваши вопросы используя поиск в интернете.")
    else Some (utf8 "I am an AI assistant. I can answer questions and provide information based on my available data and conversation history.")
  else if str_in lower_query greetings || starts (utf8 "hello") then
    if any_in (map utf8 ["привет"; "здравствуй"; "доброе"; "добрый"]%string) lower_query
    then Some (utf8 "Привет!") else Some (utf8 "Hello!")
  else if str_in lower_query farewells then
    if any_in (map utf8 ["пока"; "до свидания"; "прощай"]%string) lower_query
    then Some (utf8 "До свидания!") else Some (utf8 "Goodbye!")
  else if str_in lower_query thanks then
    if any_in (map utf8 ["спасибо"; "спс"; "благодарю"]%string) lower_query
    then Some (utf8 "Пожалуйста.") else Some (utf8 "You're welcome.")
  else if str_in lower_query affirmations then
    if any_in russian_affirmations lower_query
    then Some (utf8 "Ок.") else Some (utf8 "Okay.")
  else if str_in lower_query negations then
    if any_in (map utf8 ["нет"; "неа"; "не"]%string) lower_query
    then Some (utf8 "Понятно.") else Some (utf8 "Understood.")
  else if starts (utf8 "my name is") || starts (utf8 "i am")
          || starts (utf8 "i live in") || starts (utf8 "i'm")
          || starts (utf8 "меня зовут") || starts (utf8 "я живу в")
          || starts (utf8 "мне") && (has (utf8 "лет") || has (utf8 "год"))
          || starts (utf8 "я -") || starts (utf8 "я —") then
    if any_in (map utf8 ["меня"; "зовут"; "живу"; "лет"; "год"]%string) lower_query
    then Some (utf8 "Понятно.") else Some (utf8 "Noted.")
  else None.

(** The process-wide counters and one chat's data. *)
Record World := {
  chat_data : ChatData;
  counters : Counters
}.

Definition with_history (w : World) (h : option History) : World :=
  {| chat_data := {| history := h |}; counters := counters w |}.

(** [/start] and [/restart]: drop the history, greet. *)
Definition start (first_name : str) (w : World) : World * list Event :=
  ({| chat_data := pop_history (chat_data w); counters := counters w |},
   [Reply (greeting first_name)]).

Definition restart (first_name : str) (w : World) : World * list Event :=
  ({| chat_data := pop_history (chat_data w); counters := counters w |},
   [Reply (greeting first_name)]).

(** [/clear]. *)
Definition clear_command (w : World) : World * list Event :=
  ({| chat_data := pop_history (chat_data w); counters := counters w |},
   [Reply CLEARED_NOTICE]).

Section Controller.

(** [str.lower()], Python's Unicode lower-casing: a parameter. *)
Variable lower : str -> str.

(** The reply to a message whose history was committed: a canned reply or
    the client's answer, with the client's counters and events. *)
Definition respond (user_message : str) (history : History)
  (api : nat -> Outcome) (c : Counters) : option str * Counters * list Event :=
  let lower_query := strip (lower user_message) in
  match local_response lower_query with
  | Some response_text => (Some response_text, c, [])
  | None => get_perplexity_response history MAX_RETRIES api c
  end.

(** The [try] block of [handle_message], entered with the committed
    history: reply, append the assistant turn unless the reply starts with
    "Sorry,", send the truncated reply. A reply of [None] makes
    [response_text.startswith] raise, which [except Exception] turns into
    the error notice; the stored history is then the committed one. *)
Definition process_message (user_message : str) (history : History)
  (api : nat -> Outcome) (c : Counters) : World * list Event :=
  let '(response, c, events) := respond user_message history api c in
  match response with
  | Some response_text =>
    let history :=
      if startswith response_text SORRY then history
      else history ++ [assistant_message_of response_text] in
    ({| chat_data := {| history := Some history |}; counters := c |},
     events ++ [Reply (truncate_text response_text MAX_OUTPUT_LENGTH)])
  | None =>
    ({| chat_data := {| history := Some history |}; counters := c |},
     events ++ [Reply ERROR_NOTICE])
  end.

(** [handle_message]. *)
Definition handle_message (user_message : str) (api : nat -> Outcome)
  (w : World) : World * list Event :=
  let '(history, _) := setdefault_history (chat_data w) in
  let '(potential_next_history, history_reset_needed) :=
    check_history_limits history user_message in
  if history_reset_needed then
    (with_history w (Some [SYSTEM_PROMPT_MESSAGE]), [Typing; Reply RESET_NOTICE])
  else
    let '(w', events) :=
      process_message user_message potential_next_history api (counters w) in
    (w', Typing :: events).

(** The updates the dispatcher delivers to one chat. *)
Inductive Update :=
| StartCommand (first_name : str)
| RestartCommand (first_name : str)
| ClearCommand
| TextMessage (text : str) (api : nat -> Outcome).

Definition dispatch (u : Update) (w : World) : World * list Event :=
  match u with
  | StartCommand first_name => start first_name w
  | RestartCommand first_name => restart first_name w
  | ClearCommand => clear_command w
  | TextMessage text api => handle_message text api w
  end.

(** The world after a sequence of updates. *)
Fixpoint run (updates : list Update) (w : World) : World :=
  match updates with
  | [] => w
  | u :: rest => run rest (fst (dispatch u w))
  end.

End Controller.

(* ================================================================== *)
(** ** Properties stated below *)

Definition is_system (m : Message) : bool :=
  match role m with system => true | _ => false end.

Definition Message_eq_dec (a b : Message) : {a = b} + {a <> b}.
Proof.
  decide equality.
  - apply (list_eq_dec N.eq_dec).
  - decide equality.
Defined.

(** A well-formed history: entry 0 is the system message, and it is the
    only entry with the system role. *)
Definition history_ok (h : History) : Prop :=
  nth_error h 0 = Some SYSTEM_PROMPT_MESSAGE /\
  length (filter is_system h) = 1%nat.

Definition store_ok (d : ChatData) : Prop :=
  match history d with
  | Some h => history_ok h
  | None => True
  end.

(** The candidate history for a new user message. *)
Definition candidate (d : ChatData) (text : str) : History :=
  fst (setdefault_history d) ++ [user_message_of text].

(** Each message of the run has a candidate whose token estimate is
    within the limit. *)
Fixpoint stays_within_limit (d : ChatData) (texts : list str) : Prop :=
  match texts with
  | [] => True
  | t :: rest =>
    (estimate_tokens (candidate d t) <= MAX_HISTORY_TOKENS_ESTIMATE)%Z /\
    stays_within_limit (fst (append_and_bound d t)) rest
  end.

(** [i] is the index of the last occurrence of [c] in [s]. *)
Definition last_occurrence (s : str) (c : char) (i : nat) : Prop :=
  nth_error s i = Some c /\ forall j, (i < j)%nat -> nth_error s j <> Some c.

Definition is_break (c : char) : bool := existsb (N.eqb c) break_chars.

(** The events of [k] attempts that timed out and were followed by a
    retry, the first of them made with [retry_count]. *)
Fixpoint timed_out_attempts (messages : History) (retry_count k : nat)
  : list Event :=
  match k with
  | O => []
  | S k' =>
    Post messages :: Sleep (2 ^ Z.of_nat (S retry_count))
      :: timed_out_attempts messages (S retry_count) k'
  end.

(** The string the client returns when the attempt with outcome [o] is
    its last one, and the counters after that attempt. *)
Definition reply_of (o : Outcome) : str :=
  match o with
  | Timeout => TIMEOUT_REPLY
  | RequestError => REQUEST_ERROR_REPLY
  | UnexpectedError => UNEXPECTED_REPLY
  | Responded result =>
    match top_content result with
    | Some text => text
    | None => PARSE_ERROR_REPLY
    end
  end.

Definition counters_after (o : Outcome) (c : Counters) : Counters :=
  match o with
  | Responded result => update_statistics result c
  | _ => c
  end.

(** No counter of [c'] is below the one of [c]. *)
Definition counters_le (c c' : Counters) : Prop :=
  (total_requests c <= total_requests c')%Z /\
  (total_tokens c <= total_tokens c')%Z /\
  estimated_cost c <= estimated_cost c'.

(** [P j c] holds of every index [j] (counted from [start]) and character
    [c] of [s]. *)
Fixpoint all_indexed (P : nat -> char -> bool) (start : nat) (s : str) : bool :=
  match s with
  | [] => true
  | c :: s' => P start c && all_indexed P (S start) s'
  end.

(* ------------------------------------------------------------------ *)
(** Sample inputs. *)

Definition zero_counters : Counters :=
  {| total_requests := 0; total_tokens := 0; estimated_cost := 0 |}.

Definition fresh_world : World :=
  {| chat_data := {| history := None |}; counters := zero_counters |}.

(** A history at the ceiling: the system message and 30 short turns. *)
Definition full_history : History :=
  SYSTEM_PROMPT_MESSAGE :: repeat (user_message_of (utf8 "hi")) 30.

(** A history at the ceiling that starts with a turn of 13000 characters:
    its estimate is 3402. *)
Definition heavy_history : History :=
  SYSTEM_PROMPT_MESSAGE :: user_message_of (repeat 97%N (130 * 100))
    :: repeat (user_message_of (utf8 "hi")) 29.

(** A message of 14000 characters. *)
Definition long_text : str := repeat 97%N (140 * 100).

Definition always_timeout : nat -> Outcome := fun _ => Timeout.

Definition question : History :=
  [SYSTEM_PROMPT_MESSAGE; user_message_of (utf8 "What is Rocq?")].


Definition answer (u : option Usage) : ApiResult :=
  {| usage := u;
     choices := Some [ {| message :=
       Some {| message_content := Some (utf8 "A proof assistant.") |} |} ] |}.

(** A lower-casing of the ASCII letters, to run the controller on samples. *)
Definition ascii_lower (s : str) : str :=
  map (fun c => if (65 <=? c)%N && (c <=? 90)%N then (c + 32)%N else c) s.

(* ------------------------------------------------------------------ *)
(** Further notions for the properties of the controller and the client. *)

(** The prefixes that the local handlers test with [startswith] alone. *)
Definition local_prefixes : list str := map utf8
  ["hello"; "my name is"; "i am"; "i live in"; "i'm";
   "меня зовут"; "я живу в"; "я -"; "я —"]%string.

(** The seconds slept, in total. *)
Definition total_sleep (events : list Event) : Z :=
  fold_right Z.add 0%Z (sleeps_of events).

(** [/start], [/restart] and [/clear]. *)
Definition is_command (u : Update) : bool :=
  match u with
  | TextMessage _ _ => false
  | _ => true
  end.

(** A body whose answer is an apology of the model itself. *)
Definition apology : ApiResult :=
  {| usage := None;
     choices := Some [ {| message :=
       Some {| message_content :=
                 Some (utf8 "Sorry, I could not find anything about that.") |} |} ] |}.


(* ================================================================== *)
(** * Proofs *)

(** ** The token estimate and the trimmed history *)

Lemma total_chars_app (a b : History) :
  total_chars (a ++ b) = (total_chars a + total_chars b)%Z.
Proof.
  induction a as [|m a IH]; simpl; [reflexivity|]. rewrite IH. lia.
Qed.

Lemma total_chars_nonneg (l : History) : (0 <= total_chars l)%Z.
Proof.
  induction l as [|m l IH]; simpl; lia.
Qed.

Lemma total_chars_skipn (k : nat) (l : History) :
  (total_chars (skipn k l) <= total_chars l)%Z.
Proof.
  revert l. induction k as [|k IH]; intros [|m l]; simpl; try lia.
  specialize (IH l). lia.
Qed.

Lemma estimate_tokens_nonneg (l : History) : (0 <= estimate_tokens l)%Z.
Proof.
  unfold estimate_tokens. apply Z.div_pos; [apply total_chars_nonneg | lia].
Qed.

(** The shape of a trimmed history that was over the count limit. *)
Lemma trim_history_long (first : Message) (rest : History) :
  (MAX_HISTORY_MESSAGES < length rest)%nat ->
  trim_history (first :: rest)
  = first :: skipn (length rest - MAX_HISTORY_MESSAGES) rest.
Proof.
  intros Hlen. unfold trim_history, last_n, MAX_HISTORY_MESSAGES in *.
  cbn [Nat.eqb]. f_equal.
  replace (length (first :: rest) - 30)%nat
    with (S (length rest - 30)) by (cbn [length]; lia).
  reflexivity.
Qed.

Lemma trim_history_length (p : History) :
  (MAX_HISTORY_MESSAGES + 1 < length p)%nat ->
  length (trim_history p) = (MAX_HISTORY_MESSAGES + 1)%nat.
Proof.
  destruct p as [|first rest]; cbn [length]; [unfold MAX_HISTORY_MESSAGES; lia|].
  intros Hlen. rewrite trim_history_long by lia.
  cbn [length]. rewrite length_skipn. unfold MAX_HISTORY_MESSAGES in *. lia.
Qed.

(** Trimming by count drops entries, so it never raises the estimate. *)
Lemma estimate_tokens_trim (p : History) :
  (MAX_HISTORY_MESSAGES + 1 < length p)%nat ->
  (estimate_tokens (trim_history p) <= estimate_tokens p)%Z.
Proof.
  destruct p as [|first rest]; cbn [length]; [unfold MAX_HISTORY_MESSAGES; lia|].
  intros Hlen. rewrite trim_history_long by lia.
  unfold estimate_tokens. apply Z.div_le_mono; [lia|].
  cbn [total_chars].
  pose proof (total_chars_skipn (length rest - MAX_HISTORY_MESSAGES) rest). lia.
Qed.

(** What [check_history_limits] returns, by the estimate and the count of
    the candidate. *)
Lemma check_history_limits_over (h : History) (text : str) :
  (MAX_HISTORY_TOKENS_ESTIMATE < estimate_tokens (h ++ [user_message_of text]))%Z ->
  check_history_limits h text = (h ++ [user_message_of text], true).
Proof.
  intros Hover. unfold check_history_limits.
  destruct (Z.gtb_spec (estimate_tokens (h ++ [user_message_of text]))
              MAX_HISTORY_TOKENS_ESTIMATE); [reflexivity | lia].
Qed.

Lemma check_history_limits_short (h : History) (text : str) :
  (estimate_tokens (h ++ [user_message_of text]) <= MAX_HISTORY_TOKENS_ESTIMATE)%Z ->
  (length h <= MAX_HISTORY_MESSAGES)%nat ->
  check_history_limits h text = (h ++ [user_message_of text], false).
Proof.
  intros Hest Hlen. unfold check_history_limits.
  destruct (Z.gtb_spec (estimate_tokens (h ++ [user_message_of text]))
              MAX_HISTORY_TOKENS_ESTIMATE); [lia|].
  destruct (Nat.ltb_spec (MAX_HISTORY_MESSAGES + 1)
              (length (h ++ [user_message_of text]))) as [Hlt|_]; [|reflexivity].
  rewrite length_app in Hlt. cbn [length] in Hlt. lia.
Qed.

Lemma check_history_limits_trim (h : History) (text : str) :
  (estimate_tokens (h ++ [user_message_of text]) <= MAX_HISTORY_TOKENS_ESTIMATE)%Z ->
  (MAX_HISTORY_MESSAGES < length h)%nat ->
  check_history_limits h text
  = (trim_history (h ++ [user_message_of text]), false).
Proof.
  intros Hest Hlen. unfold check_history_limits.
  destruct (Z.gtb_spec (estimate_tokens (h ++ [user_message_of text]))
              MAX_HISTORY_TOKENS_ESTIMATE); [lia|].
  assert (Hlong : (MAX_HISTORY_MESSAGES + 1
                   < length (h ++ [user_message_of text]))%nat).
  { rewrite length_app. cbn [length]. lia. }
  destruct (Nat.ltb_spec (MAX_HISTORY_MESSAGES + 1)
              (length (h ++ [user_message_of text]))); [|lia].
  pose proof (estimate_tokens_trim _ Hlong).
  destruct (Z.gtb_spec (estimate_tokens (trim_history (h ++ [user_message_of text])))
              MAX_HISTORY_TOKENS_ESTIMATE); [lia | reflexivity].
Qed.

(** The second reset of [check_history_limits], after trimming, is never
    taken: a reset happens exactly when the candidate is over the limit. *)
Lemma check_history_limits_reset_iff (h : History) (text : str) :
  snd (check_history_limits h text) = true <->
  (MAX_HISTORY_TOKENS_ESTIMATE < estimate_tokens (h ++ [user_message_of text]))%Z.
Proof.
  split.
  - intros Hreset.
    destruct (Z.lt_ge_cases MAX_HISTORY_TOKENS_ESTIMATE
                (estimate_tokens (h ++ [user_message_of text]))) as [|Hle]; [assumption|].
    destruct (Nat.le_gt_cases (length h) MAX_HISTORY_MESSAGES).
    + rewrite check_history_limits_short in Hreset by (assumption || lia). discriminate.
    + rewrite check_history_limits_trim in Hreset by (assumption || lia). discriminate.
  - intros Hover. rewrite check_history_limits_over by assumption. reflexivity.
Qed.

(** ** Well-formed histories *)

Lemma history_ok_inv (h : History) :
  history_ok h <->
  exists rest, h = SYSTEM_PROMPT_MESSAGE :: rest /\ filter is_system rest = [].
Proof.
  unfold history_ok. split.
  - intros [Hhd Hcount]. destruct h as [|first rest]; [discriminate|].
    cbn [nth_error] in Hhd. injection Hhd as ->. exists rest. split; [reflexivity|].
    change (filter is_system (SYSTEM_PROMPT_MESSAGE :: rest))
      with (SYSTEM_PROMPT_MESSAGE :: filter is_system rest) in Hcount.
    cbn [length] in Hcount. apply length_zero_iff_nil. lia.
  - intros (rest & -> & Hrest). split; [reflexivity|].
    change (filter is_system (SYSTEM_PROMPT_MESSAGE :: rest))
      with (SYSTEM_PROMPT_MESSAGE :: filter is_system rest).
    rewrite Hrest. reflexivity.
Qed.

Lemma history_ok_seed : history_ok [SYSTEM_PROMPT_MESSAGE].
Proof.
  apply history_ok_inv. exists []. split; reflexivity.
Qed.

Lemma history_ok_append (h : History) (m : Message) :
  is_system m = false -> history_ok h -> history_ok (h ++ [m]).
Proof.
  intros Hm Hok. apply history_ok_inv in Hok as (rest & -> & Hrest).
  apply history_ok_inv. exists (rest ++ [m]). split; [reflexivity|].
  rewrite filter_app, Hrest. cbn [filter app]. rewrite Hm. reflexivity.
Qed.

Lemma filter_nil_skipn (A : Type) (f : A -> bool) (k : nat) (l : list A) :
  filter f l = [] -> filter f (skipn k l) = [].
Proof.
  revert l. induction k as [|k IH]; intros [|x l] H; cbn [skipn]; try assumption.
  apply IH. cbn [filter] in H. destruct (f x); [discriminate | assumption].
Qed.

Lemma history_ok_trim (p : History) :
  (MAX_HISTORY_MESSAGES + 1 < length p)%nat ->
  history_ok p -> history_ok (trim_history p).
Proof.
  intros Hlen Hok. apply history_ok_inv in Hok as (rest & -> & Hrest).
  cbn [length] in Hlen. rewrite trim_history_long by lia.
  apply history_ok_inv. eexists. split; [reflexivity|].
  apply filter_nil_skipn, Hrest.
Qed.

Lemma history_ok_trimmed_shape (p : History) :
  history_ok p ->
  trim_history p = SYSTEM_PROMPT_MESSAGE :: last_n MAX_HISTORY_MESSAGES p.
Proof.
  intros Hok. apply history_ok_inv in Hok as (rest & -> & _). reflexivity.
Qed.

Lemma setdefault_history_ok (d : ChatData) :
  store_ok d -> history_ok (fst (setdefault_history d)).
Proof.
  unfold store_ok, setdefault_history. destruct (history d); cbn [fst].
  - trivial.
  - intros _. apply history_ok_seed.
Qed.

Lemma candidate_ok (d : ChatData) (text : str) :
  store_ok d -> history_ok (candidate d text).
Proof.
  intros Hd. apply history_ok_append; [reflexivity|].
  apply setdefault_history_ok, Hd.
Qed.

(** The candidate that [check_history_limits] hands on is well formed,
    trimmed or not. *)
Lemma check_history_limits_ok (h : History) (text : str) :
  history_ok h -> history_ok (fst (check_history_limits h text)).
Proof.
  intros Hok.
  assert (Hcand : history_ok (h ++ [user_message_of text]))
    by (apply history_ok_append; [reflexivity | assumption]).
  destruct (Z.lt_ge_cases MAX_HISTORY_TOKENS_ESTIMATE
              (estimate_tokens (h ++ [user_message_of text]))) as [Hover|Hle].
  - rewrite check_history_limits_over by assumption. exact Hcand.
  - destruct (Nat.le_gt_cases (length h) MAX_HISTORY_MESSAGES) as [Hs|Hl].
    + rewrite check_history_limits_short by (assumption || lia). exact Hcand.
    + rewrite check_history_limits_trim by (assumption || lia). cbn [fst].
      apply history_ok_trim; [|exact Hcand].
      rewrite length_app. cbn [length]. lia.
Qed.

(** [append_and_bound] in terms of the candidate. *)
Lemma append_and_bound_eq (d : ChatData) (text : str) :
  append_and_bound d text =
  if snd (check_history_limits (fst (setdefault_history d)) text)
  then ({| history := Some [SYSTEM_PROMPT_MESSAGE] |}, true)
  else ({| history :=
             Some (fst (check_history_limits (fst (setdefault_history d)) text)) |},
        false).
Proof.
  unfold append_and_bound.
  destruct (setdefault_history d) as [h d']. cbn [fst].
  destruct (check_history_limits h text) as [p []]; reflexivity.
Qed.

Lemma append_and_bound_ok (d : ChatData) (text : str) :
  store_ok d -> store_ok (fst (append_and_bound d text)).
Proof.
  intros Hd. rewrite append_and_bound_eq.
  destruct (snd (check_history_limits (fst (setdefault_history d)) text)).
  - exact history_ok_seed.
  - apply check_history_limits_ok, setdefault_history_ok, Hd.
Qed.

Section ControllerProofs.

Variable lower : str -> str.

(** [handle_message] in terms of the limit check and the [try] block. *)
Lemma handle_message_eq (text : str) (api : nat -> Outcome) (w : World) :
  handle_message lower text api w =
  if snd (check_history_limits (fst (setdefault_history (chat_data w))) text)
  then (with_history w (Some [SYSTEM_PROMPT_MESSAGE]), [Typing; Reply RESET_NOTICE])
  else
    (fst (process_message lower text
            (fst (check_history_limits (fst (setdefault_history (chat_data w))) text))
            api (counters w)),
     Typing ::
     snd (process_message lower text
            (fst (check_history_limits (fst (setdefault_history (chat_data w))) text))
            api (counters w))).
Proof.
  unfold handle_message.
  destruct (setdefault_history (chat_data w)) as [h d']. cbn [fst].
  destruct (check_history_limits h text) as [p []]; cbn [fst snd]; [reflexivity|].
  destruct (process_message lower text p api (counters w)). reflexivity.
Qed.

(** The stored history after the [try] block: the committed history, with
    the assistant turn unless the reply is missing or starts with "Sorry,". *)
Lemma process_message_history (text : str) (h : History)
  (api : nat -> Outcome) (c : Counters) :
  history (chat_data (fst (process_message lower text h api c))) =
  Some match fst (fst (respond lower text h api c)) with
       | Some response_text =>
         if startswith response_text SORRY then h
         else h ++ [assistant_message_of response_text]
       | None => h
       end.
Proof.
  unfold process_message.
  destruct (respond lower text h api c) as [[[r|] c'] events]; reflexivity.
Qed.

Lemma process_message_ok (text : str) (h : History)
  (api : nat -> Outcome) (c : Counters) :
  history_ok h -> store_ok (chat_data (fst (process_message lower text h api c))).
Proof.
  intros Hok. unfold store_ok. rewrite process_message_history.
  destruct (fst (fst (respond lower text h api c))) as [r|]; [|assumption].
  destruct (startswith r SORRY); [assumption|].
  apply history_ok_append; [reflexivity | assumption].
Qed.

Lemma handle_message_ok (text : str) (api : nat -> Outcome) (w : World) :
  store_ok (chat_data w) ->
  store_ok (chat_data (fst (handle_message lower text api w))).
Proof.
  intros Hw. rewrite handle_message_eq.
  destruct (snd (check_history_limits (fst (setdefault_history (chat_data w))) text));
    cbn [fst].
  - exact history_ok_seed.
  - apply process_message_ok, check_history_limits_ok, setdefault_history_ok, Hw.
Qed.

End ControllerProofs.

(* ================================================================== *)
(** ** The bounded history *)

Lemma append_and_bound_at_ceiling (h : History) (text : str) :
  history_ok h ->
  length h = (MAX_HISTORY_MESSAGES + 1)%nat ->
  (estimate_tokens (candidate {| history := Some h |} text)
     <= MAX_HISTORY_TOKENS_ESTIMATE)%Z ->
  append_and_bound {| history := Some h |} text
  = ({| history := Some (SYSTEM_PROMPT_MESSAGE
                           :: last_n MAX_HISTORY_MESSAGES (h ++ [user_message_of text])) |},
     false).
Proof.
  intros Hok Hlen Hest. unfold candidate in Hest. cbn in Hest.
  rewrite append_and_bound_eq. cbn [setdefault_history history fst].
  rewrite check_history_limits_trim by (assumption || lia). cbn [fst snd].
  rewrite history_ok_trimmed_shape; [reflexivity|].
  apply history_ok_append; [reflexivity | assumption].
Qed.

Lemma last_n_length (A : Type) (n : nat) (l : list A) :
  (0 < n <= length l)%nat -> length (last_n n l) = n.
Proof.
  intros [Hpos Hle]. unfold last_n.
  destruct (Nat.eqb_spec n 0); [lia|]. rewrite length_skipn. lia.
Qed.

Lemma append_all_at_ceiling (texts : list str) :
  forall h : History,
    history_ok h ->
    length h = (MAX_HISTORY_MESSAGES + 1)%nat ->
    stays_within_limit {| history := Some h |} texts ->
    exists h',
      history (append_all {| history := Some h |} texts) = Some h' /\
      length h' = (MAX_HISTORY_MESSAGES + 1)%nat /\
      nth_error h' 0 = Some SYSTEM_PROMPT_MESSAGE.
Proof.
  induction texts as [|t rest IH]; intros h Hok Hlen Hrun.
  - exists h. split; [reflexivity|]. split; [assumption | apply Hok].
  - destruct Hrun as (Hest & Hrest).
    cbn [append_all]. rewrite append_and_bound_at_ceiling in * by assumption.
    cbn [fst] in *. apply IH; [| |exact Hrest].
    + rewrite <- history_ok_trimmed_shape
        by (apply history_ok_append; [reflexivity | assumption]).
      apply history_ok_trim;
        [rewrite length_app; cbn [length]; lia
        | apply history_ok_append; [reflexivity | assumption]].
    + cbn [length]. rewrite last_n_length; [unfold MAX_HISTORY_MESSAGES; lia|].
      rewrite length_app. cbn [length]. unfold MAX_HISTORY_MESSAGES in *. lia.
Qed.

(** The claim C1 as stated fails: a stored history of 31 entries with an
    estimate within the limit, and a new message after which the trimmed
    candidate would be well within the limit too; the candidate itself is
    over the limit, the token check comes before the count check, and the
    history is reset instead of trimmed. *)
Lemma trim_would_suffice_counterexample :
  ~ (forall (h : History) (text : str),
        history_ok h ->
        length h = (MAX_HISTORY_MESSAGES + 1)%nat ->
        (estimate_tokens h <= MAX_HISTORY_TOKENS_ESTIMATE)%Z ->
        (estimate_tokens (trim_history (candidate {| history := Some h |} text))
         <= MAX_HISTORY_TOKENS_ESTIMATE)%Z ->
        exists h',
          append_and_bound {| history := Some h |} text
          = ({| history := Some h' |}, false) /\
          length h' = (MAX_HISTORY_MESSAGES + 1)%nat).
Proof.
  intros Hclaim.
  destruct (Hclaim heavy_history (repeat 97%N 1000)) as (h' & E & _).
  - split; reflexivity.
  - reflexivity.
  - apply Z.leb_le. vm_compute. reflexivity.
  - apply Z.leb_le. vm_compute. reflexivity.
  - apply (f_equal snd) in E. vm_compute in E. discriminate E.
Qed.

(** C1, amended. A stored history of exactly MAX_HISTORY_MESSAGES + 1
    entries and a user message whose candidate (history plus the message)
    has a token estimate within MAX_HISTORY_TOKENS_ESTIMATE: the append
    commits, without a reset, the system message followed by the last
    MAX_HISTORY_MESSAGES entries of the candidate, which has exactly
    MAX_HISTORY_MESSAGES + 1 entries and an estimate still within the
    limit; any run of such appends leaves a stored history of exactly
    MAX_HISTORY_MESSAGES + 1 entries that starts with the system message. *)
Theorem append_at_ceiling_keeps_length (h : History) :
  history_ok h ->
  length h = (MAX_HISTORY_MESSAGES + 1)%nat ->
  (forall text : str,
      (estimate_tokens (candidate {| history := Some h |} text)
         <= MAX_HISTORY_TOKENS_ESTIMATE)%Z ->
      append_and_bound {| history := Some h |} text
      = ({| history :=
              Some (SYSTEM_PROMPT_MESSAGE
                      :: last_n MAX_HISTORY_MESSAGES (h ++ [user_message_of text])) |},
         false) /\
      length (SYSTEM_PROMPT_MESSAGE
                :: last_n MAX_HISTORY_MESSAGES (h ++ [user_message_of text]))
      = (MAX_HISTORY_MESSAGES + 1)%nat /\
      (estimate_tokens
         (SYSTEM_PROMPT_MESSAGE
            :: last_n MAX_HISTORY_MESSAGES (h ++ [user_message_of text]))
       <= MAX_HISTORY_TOKENS_ESTIMATE)%Z) /\
  (forall texts : list str,
      stays_within_limit {| history := Some h |} texts ->
      exists h',
        history (append_all {| history := Some h |} texts) = Some h' /\
        length h' = (MAX_HISTORY_MESSAGES + 1)%nat /\
        nth_error h' 0 = Some SYSTEM_PROMPT_MESSAGE).
Proof.
  intros Hok Hlen. split.
  - intros text Hest. split; [|split].
    + apply append_and_bound_at_ceiling; assumption.
    + cbn [length]. rewrite last_n_length; [unfold MAX_HISTORY_MESSAGES; lia|].
      rewrite length_app. cbn [length]. unfold MAX_HISTORY_MESSAGES in *. lia.
    + assert (Hcand : history_ok (h ++ [user_message_of text]))
        by (apply history_ok_append; [reflexivity | assumption]).
      rewrite <- (history_ok_trimmed_shape _ Hcand).
      assert (Hlong : (MAX_HISTORY_MESSAGES + 1
                       < length (h ++ [user_message_of text]))%nat)
        by (rewrite length_app; cbn [length]; lia).
      pose proof (estimate_tokens_trim _ Hlong). unfold candidate in Hest.
      cbn [setdefault_history history fst] in Hest. lia.
  - intros texts Hrun. apply append_all_at_ceiling; assumption.
Qed.

Lemma full_history_ok : history_ok full_history.
Proof.
  split; reflexivity.
Qed.

Lemma append_at_ceiling_keeps_length_witness :
  history_ok full_history /\
  length full_history = (MAX_HISTORY_MESSAGES + 1)%nat /\
  stays_within_limit {| history := Some full_history |}
    [utf8 "one"; utf8 "two"; utf8 "three"] /\
  exists h',
    history (append_all {| history := Some full_history |}
               [utf8 "one"; utf8 "two"; utf8 "three"]) = Some h' /\
    length h' = (MAX_HISTORY_MESSAGES + 1)%nat /\
    nth_error h' 0 = Some SYSTEM_PROMPT_MESSAGE.
Proof.
  assert (Hrun : stays_within_limit {| history := Some full_history |}
                   [utf8 "one"; utf8 "two"; utf8 "three"]).
  { repeat split; apply Z.leb_le; vm_compute; reflexivity. }
  split; [exact full_history_ok|]. split; [reflexivity|]. split; [exact Hrun|].
  exact (proj2 (append_at_ceiling_keeps_length full_history full_history_ok eq_refl)
           _ Hrun).
Defined.

(** The claim C2 as stated fails: a history within both limits is reset
    when the new message takes the candidate over the token limit, and at
    the count ceiling the committed history is the trimmed candidate. *)
Lemma small_history_reset_counterexample :
  ~ (forall (h : History) (text : str),
        (estimate_tokens h <= MAX_HISTORY_TOKENS_ESTIMATE)%Z ->
        (length h <= MAX_HISTORY_MESSAGES + 1)%nat ->
        append_and_bound {| history := Some h |} text
        = ({| history := Some (h ++ [user_message_of text]) |}, false)).
Proof.
  intros Hclaim.
  assert (Hest : (estimate_tokens [SYSTEM_PROMPT_MESSAGE]
                  <= MAX_HISTORY_TOKENS_ESTIMATE)%Z)
    by (apply Z.leb_le; vm_compute; reflexivity).
  assert (Hlen : (length [SYSTEM_PROMPT_MESSAGE] <= MAX_HISTORY_MESSAGES + 1)%nat)
    by (cbn; lia).
  pose proof (f_equal snd (Hclaim [SYSTEM_PROMPT_MESSAGE] long_text Hest Hlen)) as E.
  vm_compute in E. discriminate E.
Qed.

(** C2, amended. For every store whose history has at most
    MAX_HISTORY_MESSAGES + 1 entries and every user message whose candidate
    (history plus the message) has a token estimate within
    MAX_HISTORY_TOKENS_ESTIMATE, append_and_bound does not reset: it
    commits the candidate, trimmed to the first entry and the last
    MAX_HISTORY_MESSAGES entries when the history was at the ceiling, and
    handle_message goes on to process the message. *)
Theorem no_reset_within_limits (d : ChatData) (text : str) :
  (length (fst (setdefault_history d)) <= MAX_HISTORY_MESSAGES + 1)%nat ->
  (estimate_tokens (candidate d text) <= MAX_HISTORY_TOKENS_ESTIMATE)%Z ->
  append_and_bound d text
  = ({| history :=
          Some (if (length (fst (setdefault_history d)) <=? MAX_HISTORY_MESSAGES)%nat
                then candidate d text
                else trim_history (candidate d text)) |},
     false) /\
  forall (lower : str -> str) (api : nat -> Outcome) (c : Counters),
    handle_message lower text api {| chat_data := d; counters := c |}
    = (fst (process_message lower text
              (if (length (fst (setdefault_history d)) <=? MAX_HISTORY_MESSAGES)%nat
               then candidate d text
               else trim_history (candidate d text)) api c),
       Typing ::
       snd (process_message lower text
              (if (length (fst (setdefault_history d)) <=? MAX_HISTORY_MESSAGES)%nat
               then candidate d text
               else trim_history (candidate d text)) api c)).
Proof.
  intros Hlen Hest. unfold candidate in *.
  set (h := fst (setdefault_history d)) in *.
  assert (Hcheck : check_history_limits h text
                   = (if (length h <=? MAX_HISTORY_MESSAGES)%nat
                      then h ++ [user_message_of text]
                      else trim_history (h ++ [user_message_of text]), false)).
  { destruct (Nat.leb_spec (length h) MAX_HISTORY_MESSAGES).
    - apply check_history_limits_short; assumption.
    - apply check_history_limits_trim; assumption. }
  split.
  - rewrite append_and_bound_eq. fold h. rewrite Hcheck. reflexivity.
  - intros lower api c. rewrite handle_message_eq.
    cbn [chat_data counters]. fold h. rewrite Hcheck. reflexivity.
Qed.

Lemma no_reset_within_limits_witness :
  (length (fst (setdefault_history {| history := None |}))
   <= MAX_HISTORY_MESSAGES + 1)%nat /\
  (estimate_tokens (candidate {| history := None |} (utf8 "hello"))
   <= MAX_HISTORY_TOKENS_ESTIMATE)%Z /\
  append_and_bound {| history := None |} (utf8 "hello")
  = ({| history := Some [SYSTEM_PROMPT_MESSAGE; user_message_of (utf8 "hello")] |},
     false).
Proof.
  assert (Hlen : (length (fst (setdefault_history {| history := None |}))
                  <= MAX_HISTORY_MESSAGES + 1)%nat) by (cbn; lia).
  assert (Hest : (estimate_tokens (candidate {| history := None |} (utf8 "hello"))
                  <= MAX_HISTORY_TOKENS_ESTIMATE)%Z)
    by (apply Z.leb_le; vm_compute; reflexivity).
  split; [exact Hlen|]. split; [exact Hest|].
  exact (proj1 (no_reset_within_limits {| history := None |} (utf8 "hello") Hlen Hest)).
Defined.

(** C4. When the candidate is over the token limit, directly or still so
    after trimming by count, the store is replaced by the seed (so the
    user message is not stored), and handle_message only shows the typing
    action and sends the reset notice: whatever the message and the API
    would answer, no reply is computed, no request is posted, the counters
    are unchanged and no assistant turn is added. *)
Theorem reset_on_bound_violation (lower : str -> str) (d : ChatData)
  (text : str) (api : nat -> Outcome) (c : Counters) :
  (MAX_HISTORY_TOKENS_ESTIMATE < estimate_tokens (candidate d text))%Z \/
  ((MAX_HISTORY_MESSAGES + 1 < length (candidate d text))%nat /\
   (MAX_HISTORY_TOKENS_ESTIMATE
    < estimate_tokens (trim_history (candidate d text)))%Z) ->
  append_and_bound d text = ({| history := Some [SYSTEM_PROMPT_MESSAGE] |}, true) /\
  handle_message lower text api {| chat_data := d; counters := c |}
  = ({| chat_data := {| history := Some [SYSTEM_PROMPT_MESSAGE] |}; counters := c |},
     [Typing; Reply RESET_NOTICE]).
Proof.
  intros Hviolation.
  assert (Hover : (MAX_HISTORY_TOKENS_ESTIMATE < estimate_tokens (candidate d text))%Z).
  { destruct Hviolation as [H|[Hlen H]]; [exact H|].
    pose proof (estimate_tokens_trim _ Hlen). lia. }
  unfold candidate in Hover.
  rewrite append_and_bound_eq, handle_message_eq. cbn [chat_data counters].
  rewrite check_history_limits_over by exact Hover. cbn [snd].
  split; reflexivity.
Qed.

Lemma reset_on_bound_violation_witness :
  (MAX_HISTORY_TOKENS_ESTIMATE
   < estimate_tokens (candidate {| history := None |} long_text))%Z /\
  handle_message ascii_lower long_text (fun _ => Responded (answer None))
    fresh_world
  = ({| chat_data := {| history := Some [SYSTEM_PROMPT_MESSAGE] |};
        counters := zero_counters |},
     [Typing; Reply RESET_NOTICE]).
Proof.
  assert (Hover : (MAX_HISTORY_TOKENS_ESTIMATE
                   < estimate_tokens (candidate {| history := None |} long_text))%Z)
    by (apply Z.ltb_lt; vm_compute; reflexivity).
  split; [exact Hover|].
  exact (proj2 (reset_on_bound_violation ascii_lower {| history := None |} long_text
                  (fun _ => Responded (answer None)) zero_counters
                  (or_introl Hover))).
Defined.

(** ** The invariant of the stored history *)

Lemma dispatch_ok (lower : str -> str) (u : Update) (w : World) :
  store_ok (chat_data w) -> store_ok (chat_data (fst (dispatch lower u w))).
Proof.
  intros Hw. destruct u as [name|name| |text api]; cbn [dispatch].
  - exact I.
  - exact I.
  - exact I.
  - apply handle_message_ok, Hw.
Qed.

Lemma run_ok (lower : str -> str) (updates : list Update) :
  forall w, store_ok (chat_data w) -> store_ok (chat_data (run lower updates w)).
Proof.
  induction updates as [|u rest IH]; intros w Hw; cbn [run]; [exact Hw|].
  apply IH, dispatch_ok, Hw.
Qed.

Lemma history_ok_facts (h : History) :
  history_ok h ->
  h <> [] /\
  nth_error h 0 = Some SYSTEM_PROMPT_MESSAGE /\
  count_occ Message_eq_dec h SYSTEM_PROMPT_MESSAGE = 1%nat /\
  length (filter is_system h) = 1%nat.
Proof.
  intros Hok. pose proof Hok as [Hhd Hcount].
  apply history_ok_inv in Hok as (rest & -> & Hrest).
  split; [discriminate|]. split; [exact Hhd|]. split; [|exact Hcount].
  rewrite count_occ_cons_eq by reflexivity. f_equal.
  apply count_occ_not_In. intros Hin.
  assert (Hf : In SYSTEM_PROMPT_MESSAGE (filter is_system rest))
    by (apply filter_In; split; [exact Hin | reflexivity]).
  rewrite Hrest in Hf. exact Hf.
Qed.

(** C3. Every update (a text message, which seeds the history on first
    use, appends the user turn with or without trimming or resets to the
    seed, and may append the assistant turn; /start, /restart and /clear,
    which drop the history) preserves the invariant of the store: a stored
    history is non-empty, its entry 0 is the system message, which occurs
    exactly once and is the only entry with the system role. A text message
    always leaves a stored history, so the system message is only ever
    removed together with the whole history. *)
Theorem stored_history_invariant (lower : str -> str) (u : Update) (w : World) :
  store_ok (chat_data w) ->
  store_ok (chat_data (fst (dispatch lower u w))) /\
  (forall h, history (chat_data (fst (dispatch lower u w))) = Some h ->
     h <> [] /\
     nth_error h 0 = Some SYSTEM_PROMPT_MESSAGE /\
     count_occ Message_eq_dec h SYSTEM_PROMPT_MESSAGE = 1%nat /\
     length (filter is_system h) = 1%nat) /\
  (forall text api,
     u = TextMessage text api ->
     exists h, history (chat_data (fst (dispatch lower u w))) = Some h).
Proof.
  intros Hw. pose proof (dispatch_ok lower u w Hw) as Hok.
  split; [exact Hok|]. split.
  - intros h Hh. unfold store_ok in Hok. rewrite Hh in Hok.
    apply history_ok_facts, Hok.
  - intros text api ->. cbn [dispatch]. rewrite handle_message_eq.
    destruct (snd (check_history_limits _ text)); cbn [fst].
    + eexists. reflexivity.
    + rewrite process_message_history. eexists. reflexivity.
Qed.

Lemma stored_history_invariant_witness :
  store_ok (chat_data fresh_world) /\
  store_ok (chat_data (fst (dispatch ascii_lower
     (TextMessage (utf8 "Hello") always_timeout) fresh_world))) /\
  history (chat_data (fst (dispatch ascii_lower
     (TextMessage (utf8 "Hello") always_timeout) fresh_world)))
  = Some [SYSTEM_PROMPT_MESSAGE; user_message_of (utf8 "Hello");
          assistant_message_of (utf8 "Hello!")].
Proof.
  split; [exact I|]. split.
  - exact (proj1 (stored_history_invariant ascii_lower
                    (TextMessage (utf8 "Hello") always_timeout) fresh_world I)).
  - vm_compute. reflexivity.
Defined.

(** Every state the bot reaches from an empty store is well formed. *)
Lemma reachable_store_ok (lower : str -> str) (updates : list Update)
  (c : Counters) :
  store_ok (chat_data (run lower updates
                         {| chat_data := {| history := None |}; counters := c |})).
Proof.
  apply run_ok. exact I.
Qed.

(* ================================================================== *)
(** ** The completion client *)

Section Client.

Variable messages : History.
Variable api : nat -> Outcome.

(** One iteration of the loop, by the outcome of the attempt. *)
Lemma request_loop_step (fuel max_retries retry_count : nat) (c : Counters) :
  (retry_count < max_retries)%nat ->
  request_loop (S fuel) max_retries retry_count messages api c =
  match api retry_count with
  | Timeout =>
    if (max_retries <=? S retry_count)%nat
    then (Some TIMEOUT_REPLY, c, [Post messages])
    else
      let '(r, c', events) :=
        request_loop fuel max_retries (S retry_count) messages api c in
      (r, c', Post messages :: Sleep (2 ^ Z.of_nat (S retry_count)) :: events)
  | o => (Some (reply_of o), counters_after o c, [Post messages])
  end.
Proof.
  intros Hlt. cbn [request_loop].
  destruct (Nat.ltb_spec retry_count max_retries); [|lia].
  destruct (api retry_count) as [| | |result]; try reflexivity.
  cbn [reply_of counters_after]. destruct (top_content result); reflexivity.
Qed.

(** The loop, with enough fuel, ends in one of two ways: every attempt
    from [retry_count] on timed out, or attempt [k] was the first not to. *)
Lemma request_loop_cases (fuel : nat) :
  forall (max_retries retry_count : nat) (c : Counters),
    (retry_count < max_retries)%nat ->
    (max_retries - retry_count <= fuel)%nat ->
    ((forall j, (retry_count <= j < max_retries)%nat -> api j = Timeout) /\
     request_loop fuel max_retries retry_count messages api c
     = (Some TIMEOUT_REPLY, c,
        timed_out_attempts messages retry_count (max_retries - retry_count - 1)
          ++ [Post messages]))
    \/
    (exists k,
        (retry_count <= k < max_retries)%nat /\
        (forall j, (retry_count <= j < k)%nat -> api j = Timeout) /\
        api k <> Timeout /\
        request_loop fuel max_retries retry_count messages api c
        = (Some (reply_of (api k)), counters_after (api k) c,
           timed_out_attempts messages retry_count (k - retry_count)
             ++ [Post messages])).
Proof.
  induction fuel as [|fuel IH]; intros max_retries retry_count c Hlt Hfuel; [lia|].
  rewrite request_loop_step by assumption.
  destruct (api retry_count) eqn:Hout.
  - destruct (Nat.leb_spec max_retries (S retry_count)) as [Hlast|Hmore].
    + left. split.
      * intros j Hj. replace j with retry_count by lia. exact Hout.
      * replace (max_retries - retry_count - 1)%nat with 0%nat by lia. reflexivity.
    + destruct (IH max_retries (S retry_count) c) as [[Hall ->]|(k & Hk & Hbefore & Hk' & ->)];
        try lia.
      * left. split.
        -- intros j Hj. destruct (Nat.eq_dec j retry_count) as [->|]; [exact Hout|].
           apply Hall. lia.
        -- replace (max_retries - retry_count - 1)%nat
             with (S (max_retries - S retry_count - 1)) by lia.
           reflexivity.
      * right. exists k. split; [lia|]. split; [|split; [exact Hk'|]].
        -- intros j Hj. destruct (Nat.eq_dec j retry_count) as [->|]; [exact Hout|].
           apply Hbefore. lia.
        -- replace (k - retry_count)%nat with (S (k - S retry_count)) by lia.
           reflexivity.
  - right. exists retry_count. rewrite Hout, Nat.sub_diag.
    repeat split; try lia; try discriminate.
  - right. exists retry_count. rewrite Hout, Nat.sub_diag.
    repeat split; try lia; try discriminate.
  - right. exists retry_count. rewrite Hout, Nat.sub_diag.
    repeat split; try lia; try discriminate.
Qed.

(** Every attempt times out: [max_retries] attempts, a sleep after each
    but the last, the timeout apology. *)
Lemma request_loop_all_timeouts (max_retries : nat) (c : Counters) :
  (0 < max_retries)%nat ->
  (forall j, (j < max_retries)%nat -> api j = Timeout) ->
  request_loop max_retries max_retries 0 messages api c
  = (Some TIMEOUT_REPLY, c,
     timed_out_attempts messages 0 (max_retries - 1) ++ [Post messages]).
Proof.
  intros Hpos Hall.
  destruct (request_loop_cases max_retries max_retries 0 c)
    as [[_ ->]|(k & Hk & _ & Hk' & _)]; try lia.
  - rewrite Nat.sub_0_r. reflexivity.
  - exfalso. apply Hk', Hall. lia.
Qed.

(** Attempt [k] is the first that does not time out. *)
Lemma request_loop_first_answer (max_retries k : nat) (c : Counters) :
  (k < max_retries)%nat ->
  (forall j, (j < k)%nat -> api j = Timeout) ->
  api k <> Timeout ->
  request_loop max_retries max_retries 0 messages api c
  = (Some (reply_of (api k)), counters_after (api k) c,
     timed_out_attempts messages 0 k ++ [Post messages]).
Proof.
  intros Hk Hbefore Hk'.
  destruct (request_loop_cases max_retries max_retries 0 c)
    as [[Hall _]|(k' & Hk'lt & Hbefore' & Hk'' & ->)]; try lia.
  - exfalso. apply Hk', Hall. lia.
  - assert (k' = k) as ->.
    { destruct (Nat.lt_trichotomy k' k) as [Hlt|[Heq|Hgt]]; [|exact Heq|].
      - exfalso. apply Hk'', Hbefore, Hlt.
      - exfalso. apply Hk', Hbefore'. lia. }
    rewrite Nat.sub_0_r. reflexivity.
Qed.

End Client.

Lemma attempts_of_app (a b : list Event) :
  attempts_of (a ++ b) = (attempts_of a + attempts_of b)%nat.
Proof.
  induction a as [|e a IH]; [reflexivity|].
  destruct e; cbn [app attempts_of]; lia.
Qed.

Lemma sleeps_of_app (a b : list Event) :
  sleeps_of (a ++ b) = sleeps_of a ++ sleeps_of b.
Proof.
  induction a as [|e a IH]; [reflexivity|].
  destruct e; cbn [app sleeps_of]; rewrite IH; reflexivity.
Qed.

Lemma timed_out_attempts_count (messages : History) (k : nat) :
  forall retry_count,
    attempts_of (timed_out_attempts messages retry_count k) = k /\
    sleeps_of (timed_out_attempts messages retry_count k)
    = map (fun i => (2 ^ Z.of_nat i)%Z) (seq (S retry_count) k).
Proof.
  induction k as [|k IH]; intros retry_count; [split; reflexivity|].
  cbn [timed_out_attempts attempts_of sleeps_of seq map].
  destruct (IH (S retry_count)) as [-> ->]. split; reflexivity.
Qed.

(** The client with any positive [max_retries], every attempt timing out:
    [max_retries] attempts, and the sleeps 2^1, ..., 2^(max_retries - 1). *)
Lemma all_timeouts_general (messages : History) (api : nat -> Outcome)
  (max_retries : nat) (c : Counters) :
  (1 < length messages)%nat ->
  (0 < max_retries)%nat ->
  (forall j, (j < max_retries)%nat -> api j = Timeout) ->
  exists events,
    get_perplexity_response messages max_retries api c
    = (Some TIMEOUT_REPLY, c, events) /\
    attempts_of events = max_retries /\
    sleeps_of events = map (fun i => (2 ^ Z.of_nat i)%Z) (seq 1 (max_retries - 1)).
Proof.
  intros Hlen Hpos Hall. unfold get_perplexity_response.
  destruct (Nat.leb_spec (length messages) 1); [lia|].
  rewrite request_loop_all_timeouts by assumption.
  eexists. split; [reflexivity|].
  rewrite attempts_of_app, sleeps_of_app.
  destruct (timed_out_attempts_count messages (max_retries - 1) 0) as [-> ->].
  cbn [attempts_of sleeps_of]. rewrite app_nil_r. split; [lia | reflexivity].
Qed.

(** The claim C6 as stated fails: three attempts that time out are
    separated by two sleeps, of 2 and 4 seconds; there is no sleep of 8. *)
Lemma backoff_2_4_8_counterexample :
  sleeps_of (snd (get_perplexity_response question MAX_RETRIES always_timeout
                    zero_counters))
  <> [2; 4; 8]%Z.
Proof.
  vm_compute. discriminate.
Qed.

(** C6, amended. When every attempt times out, the client makes exactly
    MAX_RETRIES (3) attempts, sleeps 2 and then 4 seconds between them
    (2^retry_count after the first and the second timeout, nothing after
    the last), returns the timeout apology and leaves the counters as they
    were; it returns a string, it does not raise. *)
Theorem timeouts_exhaust_retries (messages : History) (api : nat -> Outcome)
  (c : Counters) :
  (1 < length messages)%nat ->
  (forall j, (j < MAX_RETRIES)%nat -> api j = Timeout) ->
  get_perplexity_response messages MAX_RETRIES api c
  = (Some TIMEOUT_REPLY, c,
     [Post messages; Sleep 2; Post messages; Sleep 4; Post messages]) /\
  attempts_of (snd (get_perplexity_response messages MAX_RETRIES api c))
  = MAX_RETRIES /\
  sleeps_of (snd (get_perplexity_response messages MAX_RETRIES api c))
  = [2; 4]%Z.
Proof.
  intros Hlen Hall.
  assert (E : get_perplexity_response messages MAX_RETRIES api c
              = (Some TIMEOUT_REPLY, c,
                 [Post messages; Sleep 2; Post messages; Sleep 4; Post messages])).
  { unfold get_perplexity_response.
    destruct (Nat.leb_spec (length messages) 1); [lia|].
    rewrite request_loop_all_timeouts by (assumption || (unfold MAX_RETRIES; lia)).
    reflexivity. }
  rewrite E. repeat split.
Qed.

Lemma timeouts_exhaust_retries_witness :
  (1 < length question)%nat /\
  (forall j, (j < MAX_RETRIES)%nat -> always_timeout j = Timeout) /\
  sleeps_of (snd (get_perplexity_response question MAX_RETRIES always_timeout
                    zero_counters))
  = [2; 4]%Z.
Proof.
  assert (Hlen : (1 < length question)%nat) by (cbn; lia).
  assert (Hall : forall j, (j < MAX_RETRIES)%nat -> always_timeout j = Timeout)
    by reflexivity.
  split; [exact Hlen|]. split; [exact Hall|].
  exact (proj2 (proj2 (timeouts_exhaust_retries question always_timeout
                         zero_counters Hlen Hall))).
Defined.

(** ** The usage counters *)


Lemma counters_le_trans (a b c : Counters) :
  counters_le a b -> counters_le b c -> counters_le a c.
Proof.
  intros (H1 & H2 & H3) (H1' & H2' & H3'). repeat split; try lia.
  eapply Qle_trans; eassumption.
Qed.







(** The client's result when attempt [k] is answered. *)
Lemma get_perplexity_response_answered (messages : History)
  (api : nat -> Outcome) (c : Counters) (max_retries k : nat) (result : ApiResult) :
  (1 < length messages)%nat ->
  (k < max_retries)%nat ->
  (forall j, (j < k)%nat -> api j = Timeout) ->
  api k = Responded result ->
  get_perplexity_response messages max_retries api c
  = (Some (reply_of (Responded result)), update_statistics result c,
     timed_out_attempts messages 0 k ++ [Post messages]).
Proof.
  intros Hlen Hk Hbefore Hout. unfold get_perplexity_response.
  destruct (Nat.leb_spec (length messages) 1); [lia|].
  rewrite (request_loop_first_answer messages api max_retries k c Hk Hbefore)
    by (rewrite Hout; discriminate).
  rewrite Hout. reflexivity.
Qed.



(** ** Fallback replies and the stored history *)


(** Every canned reply is persisted: none starts with "Sorry,". *)
Lemma local_response_not_sorry (lower_query reply : str) :
  local_response lower_query = Some reply -> startswith reply SORRY = false.
Proof.
  unfold local_response.
  repeat match goal with
         | |- (if ?b then _ else _) = Some _ -> _ => destruct b
         end;
    intros E; try discriminate E; injection E as <-; vm_compute; reflexivity.
Qed.





(* ================================================================== *)
(** ** Reply truncation *)

Lemma rfind_None (s : str) (c : char) :
  rfind s c = None -> forall j, nth_error s j <> Some c.
Proof.
  induction s as [|x s IH]; intros H j.
  - destruct j; discriminate.
  - cbn [rfind] in H. destruct (rfind s c) as [i|]; [discriminate|].
    destruct (N.eqb_spec x c) as [|Hne]; [discriminate|].
    destruct j as [|j]; cbn [nth_error].
    + intros E. injection E as E. contradiction.
    + apply IH. reflexivity.
Qed.

Lemma rfind_Some (s : str) (c : char) :
  forall i, rfind s c = Some i ->
            (i < length s)%nat /\ last_occurrence s c i.
Proof.
  unfold last_occurrence.
  induction s as [|x s IH]; intros i H; [discriminate|].
  cbn [rfind] in H. destruct (rfind s c) as [i'|] eqn:Hrest.
  - injection H as <-. destruct (IH i' eq_refl) as (Hlt & Hnth & Hlater).
    cbn [length nth_error]. split; [lia|]. split; [exact Hnth|].
    intros [|j] Hj; [lia|]. cbn [nth_error]. apply Hlater. lia.
  - destruct (N.eqb_spec x c) as [->|]; [|discriminate]. injection H as <-.
    cbn [length nth_error]. split; [lia|]. split; [reflexivity|].
    intros [|j] Hj; [lia|]. cbn [nth_error]. apply (rfind_None s c Hrest).
Qed.

Lemma last_occurrence_rfind (s : str) (c : char) (i : nat) :
  last_occurrence s c i -> rfind s c = Some i.
Proof.
  intros [Hnth Hlater]. destruct (rfind s c) as [i'|] eqn:E.
  - destruct (rfind_Some s c i' E) as (_ & Hnth' & Hlater').
    destruct (Nat.lt_trichotomy i i') as [Hlt|[->|Hgt]]; [|reflexivity|].
    + exfalso. apply (Hlater i' Hlt Hnth').
    + exfalso. apply (Hlater' i Hgt Hnth).
  - exfalso. apply (rfind_None s c E i Hnth).
Qed.

Lemma truncation_notice_length : length TRUNCATION_NOTICE = 41%nat.
Proof.
  reflexivity.
Qed.

(** The loop over the break characters: the first character that passes
    decides, and none passing gives no cut. *)
Lemma truncate_at_break_first (text : str) (max_length : nat) (pre : list char) :
  forall (c : char) (post : list char) (i : nat),
    (forall c' j, In c' pre ->
                  rfind (firstn max_length text) c' = Some j ->
                  past_threshold j max_length = false) ->
    rfind (firstn max_length text) c = Some i ->
    past_threshold i max_length = true ->
    truncate_at_break (pre ++ c :: post) text max_length
    = Some (firstn (i + 1) text ++ TRUNCATION_NOTICE).
Proof.
  induction pre as [|c0 pre IH]; intros c post i Hpre Hfind Hpast.
  - cbn [app truncate_at_break]. rewrite Hfind, Hpast. reflexivity.
  - cbn [app truncate_at_break].
    assert (Hrest : truncate_at_break (pre ++ c :: post) text max_length
                    = Some (firstn (i + 1) text ++ TRUNCATION_NOTICE)).
    { apply IH; try assumption. intros c' j Hin. apply Hpre. right. exact Hin. }
    destruct (rfind (firstn max_length text) c0) as [j|] eqn:E; [|exact Hrest].
    rewrite (Hpre c0 j (or_introl eq_refl) E). exact Hrest.
Qed.

Lemma truncate_at_break_none (text : str) (max_length : nat) (chars : list char) :
  (forall c j, In c chars ->
               rfind (firstn max_length text) c = Some j ->
               past_threshold j max_length = false) ->
  truncate_at_break chars text max_length = None.
Proof.
  induction chars as [|c chars IH]; intros Hnone; [reflexivity|].
  cbn [truncate_at_break].
  assert (Hrest : truncate_at_break chars text max_length = None).
  { apply IH. intros c' j Hin. apply Hnone. right. exact Hin. }
  destruct (rfind (firstn max_length text) c) as [j|] eqn:E; [|exact Hrest].
  rewrite (Hnone c j (or_introl eq_refl) E). exact Hrest.
Qed.

Lemma truncate_at_break_some (text : str) (max_length : nat) (chars : list char) :
  forall truncated,
    truncate_at_break chars text max_length = Some truncated ->
    exists c i,
      In c chars /\
      rfind (firstn max_length text) c = Some i /\
      past_threshold i max_length = true /\
      truncated = firstn (i + 1) text ++ TRUNCATION_NOTICE.
Proof.
  induction chars as [|c chars IH]; intros truncated H; [discriminate|].
  cbn [truncate_at_break] in H.
  destruct (rfind (firstn max_length text) c) as [j|] eqn:E.
  - destruct (past_threshold j max_length) eqn:Hpast.
    + injection H as <-. exists c, j. repeat split; try assumption. left. reflexivity.
    + destruct (IH truncated H) as (c' & i & Hin & Hrest).
      exists c', i. split; [right; exact Hin | exact Hrest].
  - destruct (IH truncated H) as (c' & i & Hin & Hrest).
    exists c', i. split; [right; exact Hin | exact Hrest].
Qed.

(** The two ways a long text is truncated, by last occurrences. *)
Lemma truncate_text_cut_at (text : str) (max_length : nat)
  (pre : list char) (c : char) (post : list char) (i : nat) :
  (max_length < length text)%nat ->
  break_chars = pre ++ c :: post ->
  last_occurrence (firstn max_length text) c i ->
  past_threshold i max_length = true ->
  (forall c' j, In c' pre ->
                last_occurrence (firstn max_length text) c' j ->
                past_threshold j max_length = false) ->
  truncate_text text max_length = firstn (i + 1) text ++ TRUNCATION_NOTICE.
Proof.
  intros Hlong Hsplit Hlast Hpast Hpre. unfold truncate_text.
  destruct (Nat.leb_spec (length text) max_length); [lia|]. rewrite Hsplit.
  rewrite (truncate_at_break_first text max_length pre c post i);
    [reflexivity| |apply last_occurrence_rfind, Hlast|exact Hpast].
  intros c' j Hin Hfind. apply (Hpre c' j Hin).
  apply (rfind_Some _ _ _ Hfind).
Qed.

Lemma truncate_text_hard_cut (text : str) (max_length : nat) :
  (max_length < length text)%nat ->
  (forall c j, In c break_chars ->
               last_occurrence (firstn max_length text) c j ->
               past_threshold j max_length = false) ->
  truncate_text text max_length = firstn max_length text ++ TRUNCATION_NOTICE.
Proof.
  intros Hlong Hnone. unfold truncate_text.
  destruct (Nat.leb_spec (length text) max_length); [lia|].
  rewrite truncate_at_break_none; [reflexivity|].
  intros c j Hin Hfind. apply (Hnone c j Hin).
  apply (rfind_Some _ _ _ Hfind).
Qed.

(** The claim C7 as stated fails: with '.' at index 8 and '!' at index 9
    of a text cut at 10, both past 70%, the cut is after the '.', the
    first character in the loop's order, not after the greatest index. *)
Lemma greatest_index_break_counterexample :
  ~ (forall (text : str) (max_length i : nat),
        (max_length < length text)%nat ->
        (i < max_length)%nat ->
        (exists c, nth_error text i = Some c /\ is_break c = true) ->
        (7 * max_length <= 10 * i)%nat ->
        (forall j c, (i < j < max_length)%nat ->
                     nth_error text j = Some c -> is_break c = false) ->
        truncate_text text max_length
        = firstn (i + 1) text ++ TRUNCATION_NOTICE).
Proof.
  intros Hclaim.
  specialize (Hclaim (utf8 "aaaaaaaa.!a") 10%nat 9%nat).
  assert (E : truncate_text (utf8 "aaaaaaaa.!a") 10
              = firstn (9 + 1) (utf8 "aaaaaaaa.!a") ++ TRUNCATION_NOTICE).
  { apply Hclaim.
    - cbn. lia.
    - lia.
    - exists 33%N. split; reflexivity.
    - lia.
    - intros j c Hj. lia. }
  vm_compute in E. discriminate E.
Qed.

(** C7, amended. For a text longer than max_length, the break characters
    are tried in the order '.', '!', '?', newline, and the first one whose
    last occurrence in text[:max_length] has an index i with
    i > max_length * 0.7 (strictly, as the code compares) decides:
    the result is text[:i+1] plus the truncation notice, whatever the
    indices of the later characters. When no break character has its last
    occurrence past that threshold, the result is text[:max_length] plus
    the notice. *)
Theorem truncate_text_break_order (text : str) (max_length : nat) :
  (max_length < length text)%nat ->
  (forall (pre : list char) (c : char) (post : list char) (i : nat),
      break_chars = pre ++ c :: post ->
      last_occurrence (firstn max_length text) c i ->
      past_threshold i max_length = true ->
      (forall c' j, In c' pre ->
                    last_occurrence (firstn max_length text) c' j ->
                    past_threshold j max_length = false) ->
      truncate_text text max_length
      = firstn (i + 1) text ++ TRUNCATION_NOTICE) /\
  ((forall c j, In c break_chars ->
                last_occurrence (firstn max_length text) c j ->
                past_threshold j max_length = false) ->
   truncate_text text max_length
   = firstn max_length text ++ TRUNCATION_NOTICE).
Proof.
  intros Hlong. split.
  - intros pre c post i Hsplit Hlast Hpast Hpre.
    apply (truncate_text_cut_at text max_length pre c post i); assumption.
  - apply truncate_text_hard_cut, Hlong.
Qed.

Lemma truncate_text_break_order_witness :
  (10 < length (utf8 "aaaaaaaa.!a"))%nat /\
  last_occurrence (firstn 10 (utf8 "aaaaaaaa.!a")) 46%N 8 /\
  past_threshold 8 10 = true /\
  truncate_text (utf8 "aaaaaaaa.!a") 10 = utf8 "aaaaaaaa." ++ TRUNCATION_NOTICE.
Proof.
  assert (Hlong : (10 < length (utf8 "aaaaaaaa.!a"))%nat) by (cbn; lia).
  assert (Hlast : last_occurrence (firstn 10 (utf8 "aaaaaaaa.!a")) 46%N 8)
    by (apply (rfind_Some (firstn 10 (utf8 "aaaaaaaa.!a")) 46%N 8); reflexivity).
  assert (Hpast : past_threshold 8 10 = true) by reflexivity.
  split; [exact Hlong|]. split; [exact Hlast|]. split; [exact Hpast|].
  refine (proj1 (truncate_text_break_order (utf8 "aaaaaaaa.!a") 10 Hlong)
            [] 46%N [33; 63; 10]%N 8%nat eq_refl Hlast Hpast _).
  intros c' j [].
Defined.

(** For the length the bot passes, MAX_OUTPUT_LENGTH = 1000, the threshold
    test is "index above 700": 1000 * 0.7 is 700.0 in binary64. *)
Lemma past_threshold_default (i : nat) :
  (i <= MAX_OUTPUT_LENGTH)%nat ->
  past_threshold i MAX_OUTPUT_LENGTH = (700 <? i)%nat.
Proof.
  intros Hi.
  assert (Hall : forallb (fun i => Bool.eqb (past_threshold i MAX_OUTPUT_LENGTH)
                                            (700 <? i)%nat)
                         (seq 0 (S MAX_OUTPUT_LENGTH)) = true)
    by (vm_compute; reflexivity).
  rewrite forallb_forall in Hall. apply eqb_prop, Hall, in_seq. lia.
Qed.

(** The product is rounded: 90 * 0.7 is just below 63 in binary64, so index
    63, at exactly 70% of 90, passes, while index 7 of 10 does not. *)
Example past_threshold_rounding :
  past_threshold 63 90 = true /\ past_threshold 7 10 = false.
Proof.
  split; reflexivity.
Qed.

Lemma all_indexed_nth_error (P : nat -> char -> bool) (s : str) :
  forall start,
    all_indexed P start s = true ->
    forall j c, nth_error s j = Some c -> P (start + j)%nat c = true.
Proof.
  induction s as [|x s IH]; intros start H j c Hnth; [destruct j; discriminate|].
  cbn [all_indexed] in H. apply andb_prop in H as [Hx Hrest].
  destruct j as [|j]; cbn [nth_error] in Hnth.
  - injection Hnth as <-. rewrite Nat.add_0_r. exact Hx.
  - replace (start + S j)%nat with (S start + j)%nat by lia.
    apply (IH (S start) Hrest j c Hnth).
Qed.

(** The claim C8 as stated fails: a text of 101 characters whose only
    break character is a period at index 74, before 0.75 * 100, is cut
    after the period, and the result, 75 + 41 characters, is longer than
    the text. *)
Lemma period_before_three_quarters_counterexample :
  ~ (forall (text : str) (max_length p : nat),
        (max_length < length text)%nat ->
        nth_error text p = Some 46%N ->
        (4 * p < 3 * max_length)%nat ->
        (forall j c, j <> p -> nth_error text j = Some c -> is_break c = false) ->
        truncate_text text max_length
        = firstn (p + 1) text ++ TRUNCATION_NOTICE /\
        (length (truncate_text text max_length) <= length text)%nat).
Proof.
  intros Hclaim.
  specialize (Hclaim (repeat 97%N 74 ++ [46%N] ++ repeat 97%N 26) 100%nat 74%nat).
  assert (E : (length (truncate_text (repeat 97%N 74 ++ [46%N] ++ repeat 97%N 26) 100)
               <= length (repeat 97%N 74 ++ [46%N] ++ repeat 97%N 26))%nat).
  { apply Hclaim.
    - cbn. lia.
    - reflexivity.
    - lia.
    - intros j c Hj Hnth.
      pose proof (all_indexed_nth_error
                    (fun j c => (j =? 74)%nat || negb (is_break c))
                    (repeat 97%N 74 ++ [46%N] ++ repeat 97%N 26) 0 eq_refl j c Hnth) as H.
      cbn [Nat.add] in H. destruct (Nat.eqb_spec j 74); [contradiction|].
      cbn [orb] in H. destruct (is_break c); [discriminate | reflexivity]. }
  vm_compute in E. lia.
Qed.

(** With the period before 70% the text is cut at max_length instead. *)
Example period_before_threshold_hard_cut :
  truncate_text (utf8 ".aaaaaaaaaa") 10 = utf8 ".aaaaaaaaa" ++ TRUNCATION_NOTICE.
Proof.
  reflexivity.
Qed.

(** C8, amended. For a text longer than max_length whose only break
    character within text[:max_length] is a period at an index p with
    p > max_length * 0.7 (as the code compares), the result is
    text[:p+1] plus the truncation notice: it ends at that period plus the
    notice, and its length is p + 1 + 41, which is at most the length of
    the text when the text has at least p + 42 characters. *)
Theorem truncate_text_at_period (text : str) (max_length p : nat) :
  (max_length < length text)%nat ->
  (p < max_length)%nat ->
  nth_error text p = Some 46%N ->
  past_threshold p max_length = true ->
  (forall j c, (j < max_length)%nat -> j <> p ->
               nth_error text j = Some c -> is_break c = false) ->
  truncate_text text max_length = firstn (p + 1) text ++ TRUNCATION_NOTICE /\
  length (truncate_text text max_length) = (p + 1 + 41)%nat /\
  ((p + 42 <= length text)%nat ->
   (length (truncate_text text max_length) <= length text)%nat).
Proof.
  intros Hlong Hp Hperiod Hpast Hothers.
  assert (Hlast : last_occurrence (firstn max_length text) 46%N p).
  { split.
    - rewrite nth_error_firstn. destruct (Nat.ltb_spec p max_length); [exact Hperiod | lia].
    - intros j Hj. rewrite nth_error_firstn.
      destruct (Nat.ltb_spec j max_length); [|discriminate].
      intros Hnth. assert (is_break 46%N = false) as Hb
          by (apply (Hothers j 46%N); (assumption || lia)).
      discriminate Hb. }
  assert (E : truncate_text text max_length
              = firstn (p + 1) text ++ TRUNCATION_NOTICE).
  { apply (truncate_text_cut_at text max_length [] 46%N [33; 63; 10]%N p
             Hlong eq_refl Hlast Hpast).
    intros c' j []. }
  rewrite E. split; [reflexivity|].
  rewrite length_app, length_firstn, truncation_notice_length. lia.
Qed.

Lemma truncate_text_at_period_witness :
  (100 < length (repeat 97%N 74 ++ [46%N] ++ repeat 97%N 26))%nat /\
  past_threshold 74 100 = true /\
  length (truncate_text (repeat 97%N 74 ++ [46%N] ++ repeat 97%N 26) 100)
  = (74 + 1 + 41)%nat.
Proof.
  assert (Hlong : (100 < length (repeat 97%N 74 ++ [46%N] ++ repeat 97%N 26))%nat)
    by (cbn; lia).
  assert (Hpast : past_threshold 74 100 = true) by reflexivity.
  split; [exact Hlong|]. split; [exact Hpast|].
  refine (proj1 (proj2 (truncate_text_at_period
            (repeat 97%N 74 ++ [46%N] ++ repeat 97%N 26) 100 74
            Hlong _ eq_refl Hpast _))).
  - lia.
  - intros j c _ Hj Hnth.
    pose proof (all_indexed_nth_error
                  (fun j c => (j =? 74)%nat || negb (is_break c))
                  (repeat 97%N 74 ++ [46%N] ++ repeat 97%N 26) 0 eq_refl j c Hnth) as H.
    cbn [Nat.add] in H. destruct (Nat.eqb_spec j 74); [contradiction|].
    cbn [orb] in H. destruct (is_break c); [discriminate | reflexivity].
Defined.

(** C10. The result of truncate_text is never longer than max_length plus
    the 41 characters of the truncation notice; when the text is longer
    than max_length and no break character passes the threshold, it has
    exactly max_length + 41 characters, so a reply cut to
    MAX_OUTPUT_LENGTH can be longer than MAX_OUTPUT_LENGTH. *)
Theorem truncate_text_length_bound :
  length TRUNCATION_NOTICE = 41%nat /\
  (forall (text : str) (max_length : nat),
      (length (truncate_text text max_length) <= max_length + 41)%nat /\
      ((max_length < length text)%nat ->
       (forall c j, In c break_chars ->
                    last_occurrence (firstn max_length text) c j ->
                    past_threshold j max_length = false) ->
       truncate_text text max_length
       = firstn max_length text ++ TRUNCATION_NOTICE /\
       length (truncate_text text max_length) = (max_length + 41)%nat)) /\
  (exists text,
      length (truncate_text text MAX_OUTPUT_LENGTH) = (MAX_OUTPUT_LENGTH + 41)%nat /\
      (MAX_OUTPUT_LENGTH < length (truncate_text text MAX_OUTPUT_LENGTH))%nat).
Proof.
  split; [reflexivity|]. split.
  - intros text max_length. split.
    + unfold truncate_text.
      destruct (Nat.leb_spec (length text) max_length) as [|Hlong]; [lia|].
      destruct (truncate_at_break break_chars text max_length) as [truncated|] eqn:E.
      * destruct (truncate_at_break_some text max_length break_chars truncated E)
          as (c & i & _ & Hfind & _ & ->).
        apply rfind_Some in Hfind as [Hi _]. rewrite length_firstn in Hi.
        rewrite length_app, length_firstn, truncation_notice_length. lia.
      * rewrite length_app, length_firstn, truncation_notice_length. lia.
    + intros Hlong Hnone.
      rewrite (truncate_text_hard_cut text max_length Hlong Hnone).
      split; [reflexivity|].
      rewrite length_app, length_firstn, truncation_notice_length. lia.
  - exists (repeat 97%N 1001). vm_compute. split; [reflexivity|].
    apply Nat.ltb_lt. vm_compute. reflexivity.
Qed.

(* ================================================================== *)
(** * Further properties *)

(** ** The token estimate and the size of the history *)

(** The estimate of two lists together is the sum of their estimates, or
    one more: the division by 4 is made once, on the total. *)
Lemma estimate_tokens_app_bounds (a b : History) :
  (estimate_tokens a + estimate_tokens b <= estimate_tokens (a ++ b)
   <= estimate_tokens a + estimate_tokens b + 1)%Z.
Proof.
  unfold estimate_tokens. rewrite total_chars_app.
  pose proof (total_chars_nonneg a). pose proof (total_chars_nonneg b).
  pose proof (Z.div_mod (total_chars a) 4).
  pose proof (Z.div_mod (total_chars b) 4).
  pose proof (Z.div_mod (total_chars a + total_chars b) 4).
  pose proof (Z.mod_pos_bound (total_chars a) 4).
  pose proof (Z.mod_pos_bound (total_chars b) 4).
  pose proof (Z.mod_pos_bound (total_chars a + total_chars b) 4).
  lia.
Qed.

Lemma system_prompt_length : Z.of_nat (length SYSTEM_PROMPT) = 553%Z.
Proof.
  reflexivity.
Qed.

Lemma total_chars_ok (h : History) :
  history_ok h -> (553 <= total_chars h)%Z.
Proof.
  intros Hok. apply history_ok_inv in Hok as (rest & -> & _).
  cbn [total_chars]. change (content SYSTEM_PROMPT_MESSAGE) with SYSTEM_PROMPT.
  rewrite system_prompt_length. pose proof (total_chars_nonneg rest). lia.
Qed.

(** The first message of a chat is refused (the history is reset) exactly
    when it has 13451 characters or more. *)
Lemma first_message_limit (text : str) :
  snd (append_and_bound {| history := None |} text) = true <->
  (13451 <= Z.of_nat (length text))%Z.
Proof.
  rewrite append_and_bound_eq. cbn [setdefault_history history fst].
  assert (Hest : estimate_tokens ([SYSTEM_PROMPT_MESSAGE] ++ [user_message_of text])
                 = ((553 + Z.of_nat (length text)) / 4)%Z).
  { unfold estimate_tokens. cbn [app total_chars user_message_of content].
    change (content SYSTEM_PROMPT_MESSAGE) with SYSTEM_PROMPT.
    rewrite system_prompt_length, Z.add_0_r. reflexivity. }
  pose proof (Z.div_mod (553 + Z.of_nat (length text)) 4).
  pose proof (Z.mod_pos_bound (553 + Z.of_nat (length text)) 4).
  destruct (Z.lt_ge_cases MAX_HISTORY_TOKENS_ESTIMATE
              (estimate_tokens ([SYSTEM_PROMPT_MESSAGE] ++ [user_message_of text])))
    as [Hover|Hle].
  - rewrite check_history_limits_over by exact Hover. cbn [snd].
    unfold MAX_HISTORY_TOKENS_ESTIMATE in Hover. split; [intros _; lia | reflexivity].
  - rewrite check_history_limits_short
      by (try exact Hle; cbn [length]; unfold MAX_HISTORY_MESSAGES; lia).
    cbn [snd]. unfold MAX_HISTORY_TOKENS_ESTIMATE in Hle.
    split; [discriminate | intros; lia].
Qed.

(** A message of 13451 characters or more is never processed, whatever
    the stored history: the history is reset and the notice asks to send
    the message again, which resets again. *)
Lemma oversized_message_always_reset (lower : str -> str) (text : str)
  (api : nat -> Outcome) (w : World) :
  store_ok (chat_data w) ->
  (13451 <= Z.of_nat (length text))%Z ->
  handle_message lower text api w
  = (with_history w (Some [SYSTEM_PROMPT_MESSAGE]), [Typing; Reply RESET_NOTICE]) /\
  handle_message lower text api (fst (handle_message lower text api w))
  = (with_history w (Some [SYSTEM_PROMPT_MESSAGE]), [Typing; Reply RESET_NOTICE]).
Proof.
  intros Hw Hlong.
  assert (Hreset : forall w0, store_ok (chat_data w0) ->
            handle_message lower text api w0
            = (with_history w0 (Some [SYSTEM_PROMPT_MESSAGE]),
               [Typing; Reply RESET_NOTICE])).
  { intros w0 Hw0. rewrite handle_message_eq.
    rewrite check_history_limits_over; [reflexivity|].
    pose proof (total_chars_ok _ (setdefault_history_ok _ Hw0)) as Hsys.
    unfold estimate_tokens, MAX_HISTORY_TOKENS_ESTIMATE. rewrite total_chars_app.
    cbn [total_chars user_message_of content].
    set (n := (total_chars (fst (setdefault_history (chat_data w0)))
               + (Z.of_nat (length text) + 0))%Z).
    pose proof (Z.div_mod n 4). pose proof (Z.mod_pos_bound n 4). lia. }
  split; [apply Hreset, Hw|].
  rewrite (Hreset w Hw). cbn [fst]. rewrite Hreset; [reflexivity|].
  exact history_ok_seed.
Qed.

Lemma oversized_message_always_reset_witness :
  store_ok (chat_data fresh_world) /\
  (13451 <= Z.of_nat (length long_text))%Z /\
  handle_message ascii_lower long_text always_timeout fresh_world
  = (with_history fresh_world (Some [SYSTEM_PROMPT_MESSAGE]),
     [Typing; Reply RESET_NOTICE]).
Proof.
  assert (Hlong : (13451 <= Z.of_nat (length long_text))%Z)
    by (apply Z.leb_le; vm_compute; reflexivity).
  split; [exact I|]. split; [exact Hlong|].
  exact (proj1 (oversized_message_always_reset ascii_lower long_text
                  always_timeout fresh_world I Hlong)).
Defined.

Lemma check_history_limits_length (h : History) (text : str) :
  snd (check_history_limits h text) = false ->
  (1 <= length (fst (check_history_limits h text)) <= MAX_HISTORY_MESSAGES + 1)%nat.
Proof.
  intros Hkeep.
  destruct (Z.lt_ge_cases MAX_HISTORY_TOKENS_ESTIMATE
              (estimate_tokens (h ++ [user_message_of text]))) as [Hover|Hle].
  - rewrite check_history_limits_over in Hkeep by assumption. discriminate.
  - destruct (Nat.le_gt_cases (length h) MAX_HISTORY_MESSAGES) as [Hs|Hl].
    + rewrite check_history_limits_short by (assumption || lia). cbn [fst].
      rewrite length_app. cbn [length]. lia.
    + rewrite check_history_limits_trim by (assumption || lia). cbn [fst].
      rewrite trim_history_length; [lia|]. rewrite length_app. cbn [length]. lia.
Qed.

(** After a text message a history is stored, and it has between 1 and
    MAX_HISTORY_MESSAGES + 2 entries, whatever was stored before: at most
    the system message, 30 turns ending with the new one, and the reply. *)
Lemma stored_history_length_bound (lower : str -> str) (text : str)
  (api : nat -> Outcome) (w : World) :
  exists h,
    history (chat_data (fst (handle_message lower text api w))) = Some h /\
    (1 <= length h <= MAX_HISTORY_MESSAGES + 2)%nat.
Proof.
  rewrite handle_message_eq.
  destruct (snd (check_history_limits (fst (setdefault_history (chat_data w))) text))
    eqn:Hreset; cbn [fst].
  - exists [SYSTEM_PROMPT_MESSAGE]. split; [reflexivity|].
    cbn [length]. unfold MAX_HISTORY_MESSAGES. lia.
  - rewrite process_message_history. eexists. split; [reflexivity|].
    pose proof (check_history_limits_length _ _ Hreset) as Hlen.
    destruct (fst (fst (respond lower text _ api (counters w)))) as [reply|];
      [destruct (startswith reply SORRY)|];
      rewrite ?length_app; cbn [length]; lia.
Qed.

(** ** What a text message makes the bot do *)

(** The events of the client are posts of the given messages and sleeps. *)
Lemma request_loop_events (messages : History) (api : nat -> Outcome)
  (fuel : nat) :
  forall (max_retries retry_count : nat) (c : Counters),
    Forall (fun e => e = Post messages \/ exists s, e = Sleep s)
      (snd (request_loop fuel max_retries retry_count messages api c)).
Proof.
  induction fuel as [|fuel IH]; intros max_retries retry_count c; cbn [request_loop].
  - destruct (retry_count <? max_retries)%nat; constructor.
  - destruct (retry_count <? max_retries)%nat; [|constructor].
    destruct (api retry_count) as [| | |result].
    + destruct (max_retries <=? S retry_count)%nat.
      * repeat constructor.
      * specialize (IH max_retries (S retry_count) c).
        destruct (request_loop fuel max_retries (S retry_count) messages api c)
          as [[r c'] events]. cbn [snd] in *.
        constructor; [left; reflexivity|].
        constructor; [right; eexists; reflexivity | exact IH].
    + repeat constructor.
    + repeat constructor.
    + destruct (top_content result); repeat constructor.
Qed.

Lemma respond_events (lower : str -> str) (text : str) (h : History)
  (api : nat -> Outcome) (c : Counters) :
  Forall (fun e => (e = Post h /\ (1 < length h)%nat) \/ exists s, e = Sleep s)
    (snd (respond lower text h api c)).
Proof.
  unfold respond. destruct (local_response (strip (lower text))); [constructor|].
  unfold get_perplexity_response.
  destruct (Nat.leb_spec (length h) 1) as [|Hlen]; [constructor|].
  pose proof (request_loop_events h api MAX_RETRIES MAX_RETRIES 0 c) as H.
  rewrite Forall_forall in *. intros e He.
  destruct (H e He) as [->|Hs]; [left; split; [reflexivity | exact Hlen] | right; exact Hs].
Qed.

(** The events of a text message, in terms of the reply. *)
Lemma handle_message_events (lower : str -> str) (text : str)
  (api : nat -> Outcome) (w : World) :
  snd (handle_message lower text api w) = [Typing; Reply RESET_NOTICE] \/
  (snd (check_history_limits (fst (setdefault_history (chat_data w))) text) = false /\
   exists final,
     snd (handle_message lower text api w)
     = Typing ::
       snd (respond lower text
              (fst (check_history_limits (fst (setdefault_history (chat_data w))) text))
              api (counters w))
       ++ [Reply final] /\
     (final = ERROR_NOTICE \/
      exists reply, final = truncate_text reply MAX_OUTPUT_LENGTH)).
Proof.
  rewrite handle_message_eq.
  destruct (snd (check_history_limits (fst (setdefault_history (chat_data w))) text));
    [left; reflexivity|].
  right. split; [reflexivity|]. cbn [snd]. unfold process_message.
  destruct (respond lower text _ api (counters w)) as [[[reply|] c'] events];
    cbn [snd]; eexists; (split; [reflexivity|]).
  - right. exists reply. reflexivity.
  - left. reflexivity.
Qed.

Lemma skipn_app_last (A : Type) (k : nat) (l : list A) (x : A) :
  (k <= length l)%nat -> skipn k (l ++ [x]) = skipn k l ++ [x].
Proof.
  intros Hk. rewrite skipn_app. replace (k - length l)%nat with 0%nat by lia.
  reflexivity.
Qed.

(** The candidate that is kept ends with the new user message. *)
Lemma check_history_limits_last (h : History) (text : str) :
  snd (check_history_limits h text) = false ->
  exists before,
    fst (check_history_limits h text) = before ++ [user_message_of text].
Proof.
  intros Hkeep.
  destruct (Z.lt_ge_cases MAX_HISTORY_TOKENS_ESTIMATE
              (estimate_tokens (h ++ [user_message_of text]))) as [Hover|Hle].
  - rewrite check_history_limits_over in Hkeep by assumption. discriminate.
  - destruct (Nat.le_gt_cases (length h) MAX_HISTORY_MESSAGES) as [Hs|Hl].
    + rewrite check_history_limits_short by (assumption || lia). exists h. reflexivity.
    + rewrite check_history_limits_trim by (assumption || lia). cbn [fst].
      destruct h as [|first rest]; [cbn [length] in Hl; lia|].
      cbn [length] in Hl. cbn [app]. rewrite trim_history_long
        by (rewrite length_app; cbn [length]; lia).
      rewrite skipn_app_last
        by (rewrite length_app; cbn [length]; unfold MAX_HISTORY_MESSAGES; lia).
      exists (first :: skipn (length (rest ++ [user_message_of text])
                              - MAX_HISTORY_MESSAGES) rest).
      reflexivity.
Qed.

Lemma check_history_limits_estimate (h : History) (text : str) :
  snd (check_history_limits h text) = false ->
  (estimate_tokens (fst (check_history_limits h text))
   <= MAX_HISTORY_TOKENS_ESTIMATE)%Z.
Proof.
  intros Hkeep.
  destruct (Z.lt_ge_cases MAX_HISTORY_TOKENS_ESTIMATE
              (estimate_tokens (h ++ [user_message_of text]))) as [Hover|Hle].
  - rewrite check_history_limits_over in Hkeep by assumption. discriminate.
  - destruct (Nat.le_gt_cases (length h) MAX_HISTORY_MESSAGES) as [Hs|Hl].
    + rewrite check_history_limits_short by (assumption || lia). cbn [fst]. lia.
    + rewrite check_history_limits_trim by (assumption || lia). cbn [fst].
      assert (Hlong : (MAX_HISTORY_MESSAGES + 1
                       < length (h ++ [user_message_of text]))%nat)
        by (rewrite length_app; cbn [length]; lia).
      pose proof (estimate_tokens_trim _ Hlong). lia.
Qed.

(** Every request the bot posts for a text message carries a history
    within both limits: an estimate of at most MAX_HISTORY_TOKENS_ESTIMATE,
    between 2 and MAX_HISTORY_MESSAGES + 1 entries, the new user message
    last, and, when the store was well formed, the system message first
    and nowhere else. *)
Lemma posted_history_within_limits (lower : str -> str) (text : str)
  (api : nat -> Outcome) (w : World) (messages : History) :
  In (Post messages) (snd (handle_message lower text api w)) ->
  (estimate_tokens messages <= MAX_HISTORY_TOKENS_ESTIMATE)%Z /\
  (2 <= length messages <= MAX_HISTORY_MESSAGES + 1)%nat /\
  (exists before, messages = before ++ [user_message_of text]) /\
  (store_ok (chat_data w) -> history_ok messages).
Proof.
  intros Hin.
  destruct (handle_message_events lower text api w)
    as [E|(Hkeep & final & E & _)]; rewrite E in Hin.
  - destruct Hin as [Hin|[Hin|[]]]; discriminate Hin.
  - destruct Hin as [Hin|Hin]; [discriminate Hin|].
    apply in_app_or in Hin as [Hin|[Hin|[]]]; [|discriminate Hin].
    pose proof (respond_events lower text
                  (fst (check_history_limits
                          (fst (setdefault_history (chat_data w))) text))
                  api (counters w)) as Hev.
    rewrite Forall_forall in Hev.
    destruct (Hev _ Hin) as [[Heq Hlen]|[s Hs]]; [|discriminate Hs].
    injection Heq as ->.
    split; [apply check_history_limits_estimate, Hkeep|].
    split; [pose proof (check_history_limits_length _ _ Hkeep); lia|].
    split; [apply check_history_limits_last, Hkeep|].
    intros Hw. apply check_history_limits_ok, setdefault_history_ok, Hw.
Qed.

Lemma posted_history_within_limits_witness :
  In (Post question)
     (snd (handle_message ascii_lower (utf8 "What is Rocq?") always_timeout
             fresh_world)) /\
  (estimate_tokens question <= MAX_HISTORY_TOKENS_ESTIMATE)%Z.
Proof.
  assert (Hin : In (Post question)
                   (snd (handle_message ascii_lower (utf8 "What is Rocq?")
                           always_timeout fresh_world)))
    by (right; left; reflexivity).
  split; [exact Hin|].
  exact (proj1 (posted_history_within_limits ascii_lower (utf8 "What is Rocq?")
                  always_timeout fresh_world question Hin)).
Defined.

Lemma total_sleep_app (a b : list Event) :
  total_sleep (a ++ b) = (total_sleep a + total_sleep b)%Z.
Proof.
  unfold total_sleep. rewrite sleeps_of_app, fold_right_app.
  induction (sleeps_of a) as [|s l IH]; cbn [fold_right]; lia.
Qed.

(** One call of the client with [MAX_RETRIES] makes at most 3 attempts and
    sleeps at most 6 seconds. *)
Lemma get_perplexity_response_effort (messages : History) (api : nat -> Outcome)
  (c : Counters) :
  (attempts_of (snd (get_perplexity_response messages MAX_RETRIES api c))
   <= MAX_RETRIES)%nat /\
  (0 <= total_sleep (snd (get_perplexity_response messages MAX_RETRIES api c)) <= 6)%Z.
Proof.
  unfold get_perplexity_response.
  destruct (Nat.leb_spec (length messages) 1); [cbn; unfold MAX_RETRIES; lia|].
  destruct (request_loop_cases messages api MAX_RETRIES MAX_RETRIES 0 c)
    as [[_ ->]|(k & Hk & _ & _ & ->)]; try (unfold MAX_RETRIES; lia).
  - cbn. unfold MAX_RETRIES. lia.
  - cbn [snd]. rewrite Nat.sub_0_r. unfold MAX_RETRIES in Hk.
    destruct k as [|[|[|k]]]; try lia; cbn; unfold MAX_RETRIES; lia.
Qed.

(** Handling one text message posts at most MAX_RETRIES (3) requests and
    sleeps at most 6 seconds in total, whatever the API does. *)
Lemma handle_message_effort (lower : str -> str) (text : str)
  (api : nat -> Outcome) (w : World) :
  (attempts_of (snd (handle_message lower text api w)) <= MAX_RETRIES)%nat /\
  (0 <= total_sleep (snd (handle_message lower text api w)) <= 6)%Z.
Proof.
  destruct (handle_message_events lower text api w)
    as [->|(_ & final & -> & _)]; [cbn; unfold MAX_RETRIES; lia|].
  change (Typing :: ?l ++ [Reply final]) with ([Typing] ++ l ++ [Reply final]).
  rewrite !attempts_of_app, !total_sleep_app. cbn [attempts_of].
  change (total_sleep [Typing]) with 0%Z. change (total_sleep [Reply final]) with 0%Z.
  unfold respond. destruct (local_response (strip (lower text))).
  - cbn. unfold MAX_RETRIES. lia.
  - pose proof (get_perplexity_response_effort
                  (fst (check_history_limits
                          (fst (setdefault_history (chat_data w))) text))
                  api (counters w)). lia.
Qed.

Lemma truncate_text_length_le (text : str) (max_length : nat) :
  (length (truncate_text text max_length) <= max_length + 41)%nat.
Proof.
  unfold truncate_text.
  destruct (Nat.leb_spec (length text) max_length) as [|Hlong]; [lia|].
  destruct (truncate_at_break break_chars text max_length) as [truncated|] eqn:E.
  - destruct (truncate_at_break_some text max_length break_chars truncated E)
      as (c & i & _ & Hfind & _ & ->).
    apply rfind_Some in Hfind as [Hi _]. rewrite length_firstn in Hi.
    rewrite length_app, length_firstn, truncation_notice_length. lia.
  - rewrite length_app, length_firstn, truncation_notice_length. lia.
Qed.

(** No reply sent for a text message is longer than MAX_OUTPUT_LENGTH + 41
    = 1041 characters. *)
Lemma reply_length_bound (lower : str -> str) (text : str)
  (api : nat -> Outcome) (w : World) (reply : str) :
  In (Reply reply) (snd (handle_message lower text api w)) ->
  (length reply <= MAX_OUTPUT_LENGTH + 41)%nat.
Proof.
  intros Hin.
  destruct (handle_message_events lower text api w)
    as [E|(_ & final & E & Hfinal)]; rewrite E in Hin.
  - destruct Hin as [Hin|[Hin|[]]]; [discriminate Hin|].
    injection Hin as <-. apply Nat.leb_le. vm_compute. reflexivity.
  - destruct Hin as [Hin|Hin]; [discriminate Hin|].
    apply in_app_or in Hin as [Hin|[Hin|[]]].
    + pose proof (respond_events lower text
                    (fst (check_history_limits
                            (fst (setdefault_history (chat_data w))) text))
                    api (counters w)) as Hev.
      rewrite Forall_forall in Hev.
      destruct (Hev _ Hin) as [[Heq _]|[s Hs]]; [discriminate Heq | discriminate Hs].
    + injection Hin as <-. destruct Hfinal as [->|[r ->]].
      * apply Nat.leb_le. vm_compute. reflexivity.
      * apply truncate_text_length_le.
Qed.

Lemma reply_length_bound_witness :
  In (Reply (truncate_text (repeat 97%N 1001) MAX_OUTPUT_LENGTH))
     (snd (handle_message ascii_lower (utf8 "What is Rocq?")
             (fun _ => Responded
                {| usage := None;
                   choices := Some [ {| message :=
                     Some {| message_content := Some (repeat 97%N 1001) |} |} ] |})
             fresh_world)) /\
  (length (truncate_text (repeat 97%N 1001) MAX_OUTPUT_LENGTH)
   <= MAX_OUTPUT_LENGTH + 41)%nat.
Proof.
  assert (Hin : In (Reply (truncate_text (repeat 97%N 1001) MAX_OUTPUT_LENGTH))
     (snd (handle_message ascii_lower (utf8 "What is Rocq?")
             (fun _ => Responded
                {| usage := None;
                   choices := Some [ {| message :=
                     Some {| message_content := Some (repeat 97%N 1001) |} |} ] |})
             fresh_world))).
  { right. right. left. vm_compute. reflexivity. }
  split; [exact Hin|].
  exact (reply_length_bound ascii_lower (utf8 "What is Rocq?") _ fresh_world _ Hin).
Defined.

(** ** Local replies *)

Lemma local_response_short (lower_query reply : str) :
  local_response lower_query = Some reply ->
  (length reply <= MAX_OUTPUT_LENGTH)%nat.
Proof.
  unfold local_response.
  repeat match goal with
         | |- (if ?b then _ else _) = Some _ -> _ => destruct b
         end;
    intros E; try discriminate E; injection E as <-;
    apply Nat.leb_le; vm_compute; reflexivity.
Qed.

(** A message that a local handler answers makes no request: the canned
    reply is sent as it is, it is stored as the assistant turn after the
    user message, and the counters are untouched. *)
Lemma local_reply_bypasses_api (lower : str -> str) (text : str)
  (api : nat -> Outcome) (w : World) (h : History) (reply : str) :
  check_history_limits (fst (setdefault_history (chat_data w))) text = (h, false) ->
  local_response (strip (lower text)) = Some reply ->
  handle_message lower text api w
  = ({| chat_data := {| history := Some (h ++ [assistant_message_of reply]) |};
        counters := counters w |},
     [Typing; Reply reply]).
Proof.
  intros Hcheck Hlocal. rewrite handle_message_eq, Hcheck. cbn [fst snd].
  unfold process_message, respond. rewrite Hlocal.
  rewrite (local_response_not_sorry _ _ Hlocal). cbn [app fst snd].
  unfold truncate_text. pose proof (local_response_short _ _ Hlocal) as Hlen.
  destruct (Nat.leb_spec (length reply) MAX_OUTPUT_LENGTH); [reflexivity | lia].
Qed.

Lemma local_reply_bypasses_api_witness :
  handle_message ascii_lower (utf8 "  Thank you ") always_timeout fresh_world
  = ({| chat_data :=
          {| history :=
               Some ([SYSTEM_PROMPT_MESSAGE; user_message_of (utf8 "  Thank you ")]
                       ++ [assistant_message_of (utf8 "You're welcome.")]) |};
        counters := zero_counters |},
     [Typing; Reply (utf8 "You're welcome.")]).
Proof.
  refine (local_reply_bypasses_api ascii_lower (utf8 "  Thank you ") always_timeout
            fresh_world
            [SYSTEM_PROMPT_MESSAGE; user_message_of (utf8 "  Thank you ")]
            (utf8 "You're welcome.") _ _).
  - vm_compute. reflexivity.
  - vm_compute. reflexivity.
Defined.

(** A message that, lower-cased and stripped, starts with "hello", "i am",
    "i'm", "my name is", "i live in" or one of the Russian statement
    prefixes always gets a canned reply, whatever follows the prefix: such
    a question never reaches the API. *)
Lemma prefixed_message_answered_locally (lower_query prefix : str) :
  In prefix local_prefixes ->
  startswith lower_query prefix = true ->
  exists reply, local_response lower_query = Some reply.
Proof.
  intros Hin Hstart. cbn [local_prefixes map In] in Hin.
  unfold local_response.
  repeat (destruct Hin as [<-|Hin]; [rewrite Hstart|]); try contradiction;
    rewrite ?orb_true_r, ?orb_true_l;
    repeat match goal with
           | |- exists _, (if ?b then _ else _) = Some _ => destruct b
           end;
    eexists; reflexivity.
Qed.

Lemma prefixed_message_answered_locally_witness :
  In (utf8 "i am") local_prefixes /\
  startswith (utf8 "i am wondering what the capital of france is") (utf8 "i am")
  = true /\
  exists reply,
    local_response (utf8 "i am wondering what the capital of france is")
    = Some reply.
Proof.
  assert (Hin : In (utf8 "i am") local_prefixes)
    by (right; right; left; reflexivity).
  assert (Hstart : startswith (utf8 "i am wondering what the capital of france is")
                     (utf8 "i am") = true) by reflexivity.
  split; [exact Hin|]. split; [exact Hstart|].
  exact (prefixed_message_answered_locally _ _ Hin Hstart).
Defined.

(** ** More on the completion client *)








(** One call of the client counts at most one request, however many
    attempts it makes, and when no attempt is answered the counters are
    exactly as before. *)
Lemma client_counts_answers_only (messages : History) (api : nat -> Outcome)
  (c : Counters) (max_retries : nat) :
  (total_requests (snd (fst (get_perplexity_response messages max_retries api c)))
   = total_requests c \/
   total_requests (snd (fst (get_perplexity_response messages max_retries api c)))
   = (total_requests c + 1)%Z) /\
  ((forall j result, api j <> Responded result) ->
   snd (fst (get_perplexity_response messages max_retries api c)) = c).
Proof.
  unfold get_perplexity_response.
  destruct (Nat.leb_spec (length messages) 1) as [|Hlen];
    [split; [left|]; reflexivity|].
  destruct max_retries as [|n]; [split; [left|]; reflexivity|].
  destruct (request_loop_cases messages api (S n) (S n) 0 c)
    as [[_ ->]|(k & _ & _ & _ & ->)]; try lia; cbn [fst snd].
  - split; [left|]; reflexivity.
  - split.
    + destruct (api k) as [| | |result]; cbn [counters_after];
        try (left; reflexivity).
      right. unfold update_statistics. destruct (usage result); reflexivity.
    + intros Hnever. destruct (api k) as [| | |result] eqn:E; try reflexivity.
      exfalso. apply (Hnever k result E).
Qed.

(** ** The sentinel prefix and genuine answers *)

Lemma committed_history_has_question (h before : History) (text : str) :
  history_ok h -> h = before ++ [user_message_of text] -> (1 < length h)%nat.
Proof.
  intros [Hhd _] ->. destruct before as [|first before].
  - cbn in Hhd. injection Hhd as Hrole _. discriminate Hrole.
  - cbn [app length]. rewrite length_app. cbn [length]. lia.
Qed.

(** The test for a fallback string is the prefix "Sorry," alone: a genuine
    answer of the model that starts with "Sorry," is sent to the user and
    counted, but it is not stored, so the history keeps the question
    without its answer. *)
Lemma genuine_sorry_answer_not_stored (lower : str -> str) (text : str)
  (api : nat -> Outcome) (w : World) (h : History) (k : nat)
  (result : ApiResult) (answer_text : str) :
  store_ok (chat_data w) ->
  check_history_limits (fst (setdefault_history (chat_data w))) text = (h, false) ->
  local_response (strip (lower text)) = None ->
  (k < MAX_RETRIES)%nat ->
  (forall j, (j < k)%nat -> api j = Timeout) ->
  api k = Responded result ->
  top_content result = Some answer_text ->
  startswith answer_text SORRY = true ->
  handle_message lower text api w
  = ({| chat_data := {| history := Some h |};
        counters := update_statistics result (counters w) |},
     Typing :: (timed_out_attempts h 0 k ++ [Post h])
       ++ [Reply (truncate_text answer_text MAX_OUTPUT_LENGTH)]).
Proof.
  intros Hw Hcheck Hlocal Hk Hbefore Hout Htext Hsorry.
  assert (Hlen : (1 < length h)%nat).
  { pose proof (check_history_limits_ok _ text (setdefault_history_ok _ Hw)) as Hok.
    destruct (check_history_limits_last (fst (setdefault_history (chat_data w))) text)
      as [before Hlast]; [rewrite Hcheck; reflexivity|].
    rewrite Hcheck in Hok, Hlast. cbn [fst] in Hok, Hlast.
    exact (committed_history_has_question h before text Hok Hlast). }
  rewrite handle_message_eq, Hcheck. cbn [fst snd].
  unfold process_message, respond. rewrite Hlocal.
  rewrite (get_perplexity_response_answered h api (counters w) MAX_RETRIES k result
             Hlen Hk Hbefore Hout).
  cbn [reply_of]. rewrite Htext, Hsorry. reflexivity.
Qed.

Lemma genuine_sorry_answer_not_stored_witness :
  handle_message ascii_lower (utf8 "What is Rocq?") (fun _ => Responded apology)
    fresh_world
  = ({| chat_data := {| history := Some question |};
        counters := update_statistics apology zero_counters |},
     Typing :: (timed_out_attempts question 0 0 ++ [Post question])
       ++ [Reply (truncate_text (utf8 "Sorry, I could not find anything about that.")
                    MAX_OUTPUT_LENGTH)]).
Proof.
  refine (genuine_sorry_answer_not_stored ascii_lower (utf8 "What is Rocq?")
            (fun _ => Responded apology) fresh_world question 0 apology
            (utf8 "Sorry, I could not find anything about that.")
            I _ _ _ _ eq_refl eq_refl _).
  - vm_compute. reflexivity.
  - vm_compute. reflexivity.
  - unfold MAX_RETRIES; lia.
  - intros j Hj; lia.
  - vm_compute. reflexivity.
Defined.

(** ** More on truncation *)

(** [truncate_text] never changes a character: the result is the text
    itself, when it fits, and otherwise the first [k] characters of the
    text followed by the notice, where [k] is [max_length] or the position
    just after a break character within the first [max_length]. *)
Lemma truncate_text_shape (text : str) (max_length : nat) :
  ((length text <= max_length)%nat /\ truncate_text text max_length = text) \/
  ((max_length < length text)%nat /\
   exists k,
     (k <= max_length)%nat /\
     truncate_text text max_length = firstn k text ++ TRUNCATION_NOTICE /\
     (k = max_length \/
      exists i c, k = S i /\ nth_error text i = Some c /\ is_break c = true)).
Proof.
  unfold truncate_text.
  destruct (Nat.leb_spec (length text) max_length) as [Hshort|Hlong];
    [left; split; [exact Hshort | reflexivity]|].
  right. split; [exact Hlong|].
  destruct (truncate_at_break break_chars text max_length) as [truncated|] eqn:E.
  - destruct (truncate_at_break_some text max_length break_chars truncated E)
      as (c & i & Hin & Hfind & _ & ->).
    apply rfind_Some in Hfind as (Hi & Hnth & _).
    rewrite length_firstn in Hi. exists (S i). split; [lia|].
    split; [rewrite Nat.add_1_r; reflexivity|].
    right. exists i, c. split; [reflexivity|]. split.
    + rewrite nth_error_firstn in Hnth.
      destruct (Nat.ltb_spec i max_length); [exact Hnth | discriminate].
    + unfold is_break. apply existsb_exists. exists c. split; [exact Hin|].
      apply N.eqb_refl.
  - exists max_length. split; [lia|]. split; [reflexivity | left; reflexivity].
Qed.

(** A reply of more than MAX_OUTPUT_LENGTH (1000) characters whose first
    1000 characters hold a period after index 700 is cut just after the
    last such period, whatever other break characters follow it. *)
Lemma long_reply_cut_after_last_period (text : str) (i : nat) :
  (MAX_OUTPUT_LENGTH < length text)%nat ->
  last_occurrence (firstn MAX_OUTPUT_LENGTH text) 46%N i ->
  (700 < i)%nat ->
  truncate_text text MAX_OUTPUT_LENGTH = firstn (i + 1) text ++ TRUNCATION_NOTICE.
Proof.
  intros Hlong Hlast Hi.
  apply (truncate_text_cut_at text MAX_OUTPUT_LENGTH [] 46%N [33; 63; 10]%N i
           Hlong eq_refl Hlast).
  - rewrite past_threshold_default.
    + apply Nat.ltb_lt. exact Hi.
    + destruct Hlast as [Hnth _].
      assert (Hlt : (i < length (firstn MAX_OUTPUT_LENGTH text))%nat)
        by (apply nth_error_Some; rewrite Hnth; discriminate).
      rewrite length_firstn in Hlt. lia.
  - intros c' j [].
Qed.

Lemma long_reply_cut_after_last_period_witness :
  (MAX_OUTPUT_LENGTH < length (repeat 97%N 800 ++ utf8 ".!" ++ repeat 97%N 300))%nat /\
  last_occurrence
    (firstn MAX_OUTPUT_LENGTH (repeat 97%N 800 ++ utf8 ".!" ++ repeat 97%N 300))
    46%N 800 /\
  truncate_text (repeat 97%N 800 ++ utf8 ".!" ++ repeat 97%N 300) MAX_OUTPUT_LENGTH
  = firstn (800 + 1) (repeat 97%N 800 ++ utf8 ".!" ++ repeat 97%N 300)
      ++ TRUNCATION_NOTICE.
Proof.
  assert (Hlong : (MAX_OUTPUT_LENGTH
                   < length (repeat 97%N 800 ++ utf8 ".!" ++ repeat 97%N 300))%nat)
    by (apply Nat.ltb_lt; vm_compute; reflexivity).
  assert (Hlast : last_occurrence
                    (firstn MAX_OUTPUT_LENGTH
                       (repeat 97%N 800 ++ utf8 ".!" ++ repeat 97%N 300))
                    46%N 800)
    by (apply (rfind_Some _ 46%N 800); vm_compute; reflexivity).
  split; [exact Hlong|]. split; [exact Hlast|].
  refine (long_reply_cut_after_last_period _ 800 Hlong Hlast _).
  apply Nat.ltb_lt. vm_compute. reflexivity.
Defined.

(** ** Commands and the order of the history *)

(** After [/start], [/restart] or [/clear] the counters are kept and the
    next text message is handled exactly as on a store that holds only
    the system message, the state an overflow reset leaves: nothing of the
    earlier conversation is used. *)
Lemma commands_forget_history (lower : str -> str) (cmd : Update) (w : World)
  (text : str) (api : nat -> Outcome) :
  is_command cmd = true ->
  counters (fst (dispatch lower cmd w)) = counters w /\
  dispatch lower (TextMessage text api) (fst (dispatch lower cmd w))
  = handle_message lower text api (with_history w (Some [SYSTEM_PROMPT_MESSAGE])).
Proof.
  intros Hcmd.
  assert (E : fst (dispatch lower cmd w) = with_history w None)
    by (destruct cmd; [reflexivity | reflexivity | reflexivity | discriminate Hcmd]).
  rewrite E. split; [reflexivity|].
  cbn [dispatch]. rewrite !handle_message_eq. reflexivity.
Qed.

Lemma commands_forget_history_witness :
  is_command ClearCommand = true /\
  dispatch ascii_lower (TextMessage (utf8 "Hello") always_timeout)
    (fst (dispatch ascii_lower ClearCommand
            (with_history fresh_world (Some full_history))))
  = handle_message ascii_lower (utf8 "Hello") always_timeout
      (with_history (with_history fresh_world (Some full_history))
         (Some [SYSTEM_PROMPT_MESSAGE])).
Proof.
  split; [reflexivity|].
  exact (proj2 (commands_forget_history ascii_lower ClearCommand
                  (with_history fresh_world (Some full_history))
                  (utf8 "Hello") always_timeout eq_refl)).
Defined.

(** A text message that is not refused never edits or reorders earlier
    turns: the stored history becomes the system message, the earlier
    turns without the oldest ones beyond the count limit, the new user
    message, and at most one assistant turn. *)
Lemma committed_history_keeps_order (lower : str -> str) (text : str)
  (api : nat -> Outcome) (w : World) (h0 : History) :
  history (chat_data w) = Some h0 ->
  history_ok h0 ->
  snd (check_history_limits h0 text) = false ->
  exists tail,
    history (chat_data (fst (handle_message lower text api w)))
    = Some (SYSTEM_PROMPT_MESSAGE
              :: skipn (length h0 - MAX_HISTORY_MESSAGES) (tl h0)
              ++ user_message_of text :: tail) /\
    (tail = [] \/ exists reply, tail = [assistant_message_of reply]).
Proof.
  intros Hstored Hok Hkeep.
  assert (Hcand : fst (check_history_limits h0 text)
                  = SYSTEM_PROMPT_MESSAGE
                      :: skipn (length h0 - MAX_HISTORY_MESSAGES) (tl h0)
                      ++ [user_message_of text]).
  { destruct (Z.lt_ge_cases MAX_HISTORY_TOKENS_ESTIMATE
                (estimate_tokens (h0 ++ [user_message_of text]))) as [Hover|Hle].
    { rewrite check_history_limits_over in Hkeep by assumption. discriminate. }
    apply history_ok_inv in Hok as (rest & -> & _). cbn [tl length].
    destruct (Nat.le_gt_cases (length (SYSTEM_PROMPT_MESSAGE :: rest))
                MAX_HISTORY_MESSAGES) as [Hs|Hl].
    - rewrite check_history_limits_short by assumption. cbn [fst length] in *.
      replace (S (length rest) - MAX_HISTORY_MESSAGES)%nat with 0%nat by lia.
      reflexivity.
    - rewrite check_history_limits_trim by assumption. cbn [fst length app] in *.
      rewrite trim_history_long by (rewrite length_app; cbn [length]; lia).
      rewrite length_app. cbn [length].
      rewrite skipn_app_last by (unfold MAX_HISTORY_MESSAGES; lia).
      replace (length rest + 1 - MAX_HISTORY_MESSAGES)%nat
        with (S (length rest) - MAX_HISTORY_MESSAGES)%nat by lia.
      reflexivity. }
  rewrite handle_message_eq. unfold setdefault_history. rewrite Hstored.
  cbn [fst]. rewrite Hkeep. cbn [fst]. rewrite process_message_history, Hcand.
  destruct (fst (fst (respond lower text _ api (counters w)))) as [reply|].
  - destruct (startswith reply SORRY).
    + exists []. split; [reflexivity | left; reflexivity].
    + exists [assistant_message_of reply]. split; [|right; eexists; reflexivity].
      cbn [app]. rewrite <- app_assoc. reflexivity.
  - exists []. split; [reflexivity | left; reflexivity].
Qed.

Lemma committed_history_keeps_order_witness :
  history (chat_data (with_history fresh_world (Some full_history)))
  = Some full_history /\
  snd (check_history_limits full_history (utf8 "Hello")) = false /\
  exists tail,
    history (chat_data (fst (handle_message ascii_lower (utf8 "Hello") always_timeout
                               (with_history fresh_world (Some full_history)))))
    = Some (SYSTEM_PROMPT_MESSAGE
              :: skipn (length full_history - MAX_HISTORY_MESSAGES) (tl full_history)
              ++ user_message_of (utf8 "Hello") :: tail) /\
    (tail = [] \/ exists reply, tail = [assistant_message_of reply]).
Proof.
  assert (Hkeep : snd (check_history_limits full_history (utf8 "Hello")) = false)
    by (vm_compute; reflexivity).
  split; [reflexivity|]. split; [exact Hkeep|].
  exact (committed_history_keeps_order ascii_lower (utf8 "Hello") always_timeout
           (with_history fresh_world (Some full_history)) full_history
           eq_refl full_history_ok Hkeep).
Defined.
